(** * sqlalchemy_h2: the H2 dialect of SQLAlchemy, embedded in Rocq

    The development follows [sqlalchemy_h2/dialect/base.py], and
    [sqlalchemy_h2/dialect/zxjdbc.py] for the error code of a driver
    exception.  Python byte
    strings are [string], and a unicode text is written as its encoding;
    where the code lets the two meet, the byte string is decoded as ASCII.
    [None] is [None]; a dict used as a map is a [gmap];
    a raised exception is the [Raise] branch of [result]; the warnings and
    the statements a method issues are recorded in a trace.

    A reflection method is followed from the rows its statement fetches:
    the [typemap] of the statement fixes the type of each cell, and the
    rows are the argument of the method here.  The decorator
    [reflection.cache] and what the dialect inherits from SQLAlchemy are
    outside the repository; the methods of the inherited preparer are
    parameters.  The patterns are run by a backtracking matcher written
    after Python's [re]. *)

From Stdlib Require Import ZArith Ascii String.
From stdpp Require Import base option list gmap strings pretty.

Set Default Proof Using "Type".

(** ** Python values and exceptions *)

Module Py.

Inductive exn : Type :=
  | IndexError
  | AttributeError
  | UnboundLocalError
  | UnicodeDecodeError
  | DBAPIError (msg : string).

Inductive result (A : Type) : Type :=
  | Ok (a : A)
  | Raise (e : exn).
  Arguments Ok {A} a.
  Arguments Raise {A} e.

Global Instance result_ret : MRet result := fun A a => Ok a.
Global Instance result_bind : MBind result := fun A B f r =>
  match r with
  | Ok a => f a
  | Raise e => Raise e
  end.

(** [[f(x) for x in xs]]: the comprehension stops at the first exception. *)
Fixpoint for_each {A B} (f : A -> result B) (xs : list A) : result (list B) :=
  match xs with
  | [] => Ok []
  | x :: xs' =>
      y ← f x; ys ← for_each f xs'; Ok (y :: ys)
  end.

(** The newline character and the characters of [string.whitespace]. *)
Definition newline : ascii := "010"%char.

(** [str.upper] and [str.lower] of a byte string: only the ASCII letters
    change. *)
Definition is_lower (c : ascii) : bool :=
  (97 <=? nat_of_ascii c)%nat && (nat_of_ascii c <=? 122)%nat.
Definition is_upper (c : ascii) : bool :=
  (65 <=? nat_of_ascii c)%nat && (nat_of_ascii c <=? 90)%nat.
Definition is_digit (c : ascii) : bool :=
  (48 <=? nat_of_ascii c)%nat && (nat_of_ascii c <=? 57)%nat.

Definition upper_char (c : ascii) : ascii :=
  if is_lower c then ascii_of_nat (nat_of_ascii c - 32) else c.
Definition lower_char (c : ascii) : ascii :=
  if is_upper c then ascii_of_nat (nat_of_ascii c + 32) else c.

Fixpoint map_chars (f : ascii -> ascii) (s : string) : string :=
  match s with
  | EmptyString => EmptyString
  | String c s' => String (f c) (map_chars f s')
  end.

Definition upper : string -> string := map_chars upper_char.
Definition lower : string -> string := map_chars lower_char.

(** [s.replace(old, new)] for the two-character [old] the dialect uses. *)
Fixpoint replace2 (o1 o2 : ascii) (new : string) (s : string) : string :=
  match s with
  | EmptyString => EmptyString
  | String c s' =>
      match s' with
      | String c' s'' =>
          if Ascii.eqb c o1 && Ascii.eqb c' o2
          then new +:+ replace2 o1 o2 new s''
          else String c (replace2 o1 o2 new s')
      | EmptyString => String c EmptyString
      end
  end.

(** [s.strip(ch)] for a single character [ch]. *)
Fixpoint lstrip (ch : ascii) (s : string) : string :=
  match s with
  | String c s' => if Ascii.eqb c ch then lstrip ch s' else s
  | EmptyString => EmptyString
  end.

Fixpoint rstrip (ch : ascii) (s : string) : string :=
  match s with
  | EmptyString => EmptyString
  | String c s' =>
      match rstrip ch s' with
      | EmptyString => if Ascii.eqb c ch then EmptyString else String c EmptyString
      | t => String c t
      end
  end.

Definition strip (ch : ascii) (s : string) : string := rstrip ch (lstrip ch s).

(** [s.decode('ascii')]: what Python 2 does to a byte string that meets a
    unicode text in [%] or [+].  A byte above 127 is a
    [UnicodeDecodeError]. *)
Definition is_ascii_char (c : ascii) : bool := (nat_of_ascii c <? 128)%nat.

Fixpoint is_ascii (s : string) : bool :=
  match s with
  | EmptyString => true
  | String c s' => is_ascii_char c && is_ascii s'
  end.

Definition decode_ascii (s : string) : result string :=
  if is_ascii s then Ok s else Raise UnicodeDecodeError.

(** Truth value of an optional string, of an optional integer. *)
Definition truthy_str (o : option string) : bool :=
  match o with
  | Some (String _ _) => true
  | _ => false
  end.

Definition truthy_int (o : option Z) : bool :=
  match o with
  | Some z => negb (z =? 0)%Z
  | None => false
  end.

End Py.

Export Py.


(** ** The part of Python's [re] the dialect uses

    A backtracking matcher in continuation-passing style, as [sre] runs it:
    alternatives are tried in order and the first success wins.  Repetition
    is over one-character sets only, which is all the patterns of the dialect
    need. *)

Module Re.

Inductive regex : Type :=
  | Str (lit : string)                       (* a literal run of characters *)
  | One (p : ascii -> bool)                  (* [.], [\s], [[A-Z0-9_$]] *)
  | Star (greedy : bool) (p : ascii -> bool) (* [x*] and [x*?] *)
  | Cat (r1 r2 : regex)
  | Opt (r : regex)                          (* [(?:r)?] *)
  | Group (n : nat) (r : regex)              (* the n-th [( )] *)
  | Eol.                                     (* [$] *)

Definition dot : ascii -> bool := fun c => negb (Ascii.eqb c newline).
Definition space : ascii -> bool := Ascii.is_space.
Definition plus (p : ascii -> bool) : regex := Cat (One p) (Star true p).

Fixpoint strip_prefix (lit s : string) : option string :=
  match lit with
  | EmptyString => Some s
  | String c lit' =>
      match s with
      | String d s' => if Ascii.eqb c d then strip_prefix lit' s' else None
      | EmptyString => None
      end
  end.

(** The first [n] characters of [s], and [s] without its suffix [rest]. *)
Fixpoint take (n : nat) (s : string) : string :=
  match n, s with
  | S n', String c s' => String c (take n' s')
  | _, _ => EmptyString
  end.

Definition consumed (s rest : string) : string :=
  take (String.length s - String.length rest) s.

(** What a successful run returns: the captured groups and the text left
    after the match. *)
Definition outcome : Type := gmap nat string * string.

Fixpoint greedy_star (p : ascii -> bool) (k : string -> option outcome)
    (s : string) : option outcome :=
  match
    match s with
    | String c s' => if p c then greedy_star p k s' else None
    | EmptyString => None
    end
  with
  | Some res => Some res
  | None => k s
  end.

Fixpoint lazy_star (p : ascii -> bool) (k : string -> option outcome)
    (s : string) : option outcome :=
  match k s with
  | Some res => Some res
  | None =>
      match s with
      | String c s' => if p c then lazy_star p k s' else None
      | EmptyString => None
      end
  end.

Definition capture (n : nat) (s : string) (k : string -> option outcome)
    (s' : string) : option outcome :=
  match k s' with
  | Some (g, rest) => Some (<[n := consumed s s']> g, rest)
  | None => None
  end.

Fixpoint run (r : regex) (s : string) (k : string -> option outcome)
    : option outcome :=
  match r with
  | Str lit =>
      match strip_prefix lit s with
      | Some s' => k s'
      | None => None
      end
  | One p =>
      match s with
      | String c s' => if p c then k s' else None
      | EmptyString => None
      end
  | Star true p => greedy_star p k s
  | Star false p => lazy_star p k s
  | Cat r1 r2 => run r1 s (fun s' => run r2 s' k)
  | Opt r' =>
      match run r' s k with
      | Some res => Some res
      | None => k s
      end
  | Group n r' => run r' s (capture n s k)
  | Eol =>
      match s with
      | EmptyString => k s
      | String c EmptyString => if Ascii.eqb c newline then k s else None
      | String _ (String _ _) => None
      end
  end.

Record match_obj : Type := MatchObj {
  m_start : nat;               (* offset of the match in the searched text *)
  m_text : string;             (* group 0 *)
  m_groups : gmap nat string;  (* the groups that took part *)
  m_rest : string              (* the text after the match *)
}.

(** [pattern.match(s)]: anchored at the start of [s]. *)
Definition match_at (pos : nat) (r : regex) (s : string) : option match_obj :=
  match run r s (fun rest => Some (∅, rest)) with
  | Some (g, rest) => Some (MatchObj pos (consumed s rest) g rest)
  | None => None
  end.

Definition re_match (r : regex) (s : string) : option match_obj :=
  match_at 0 r s.

(** [re.search(pattern, s)]: the leftmost start at which the pattern
    matches. *)
Fixpoint search_from (pos : nat) (r : regex) (s : string) : option match_obj :=
  match match_at pos r s with
  | Some m => Some m
  | None =>
      match s with
      | String _ s' => search_from (S pos) r s'
      | EmptyString => None
      end
  end.

Definition search (r : regex) (s : string) : option match_obj :=
  search_from 0 r s.

(** [m.groups()] of a pattern with [n] groups: [None] for a group that did
    not take part. *)
Definition groups (n : nat) (m : match_obj) : list (option string) :=
  (fun i => m_groups m !! i) <$> seq 1 n.

Fixpoint drop (n : nat) (s : string) : string :=
  match n, s with
  | S n', String _ s' => drop n' s'
  | _, _ => s
  end.

(** [re.split(pattern, s)] of Python 2 for a pattern without groups.
    [pending] is the text between the end of the last match and the point
    the search resumes from; an empty match is not split on, the search
    moves one character on.  Every turn of the loop shortens [s], so one
    unit of [fuel] for each character and one more is enough. *)
Fixpoint split_loop (fuel : nat) (r : regex) (pending s : string)
    : list string :=
  match fuel with
  | O => [pending +:+ s]
  | S fuel' =>
      match search r s with
      | None => [pending +:+ s]
      | Some m =>
          match m_text m with
          | EmptyString =>
              match pending +:+ s with
              | EmptyString => [EmptyString]
              | String _ _ =>
                  if (m_start m <? String.length s)%nat
                  then split_loop fuel' r
                         (pending +:+ take (S (m_start m)) s)
                         (drop (S (m_start m)) s)
                  else [pending +:+ s]
              end
          | String _ _ =>
              (pending +:+ take (m_start m) s)
                :: split_loop fuel' r EmptyString (m_rest m)
          end
      end
  end.

Definition split (r : regex) (s : string) : list string :=
  split_loop (S (String.length s)) r EmptyString s.

End Re.

Import Re.

Infix "⋅" := Cat (at level 41, right associativity).

(** Values that are a string or [None]. *)
Abbreviation pystr := (option string).

(** ** [H2IdentifierPreparer] *)

Module IdentifierPreparer.

(** [reserved_words], lines 108-128. *)
Definition reserved_words : gset string := list_to_set [
  "add"; "after"; "all"; "alter"; "analyze"; "and"; "as"; "asc";
  "attach"; "autoincrement"; "before"; "begin"; "between"; "by";
  "cascade"; "case"; "cast"; "check"; "collate"; "column"; "commit";
  "conflict"; "constraint"; "create"; "cross"; "current_date";
  "current_time"; "current_timestamp"; "database"; "default";
  "deferrable"; "deferred"; "delete"; "desc"; "detach"; "distinct";
  "drop"; "each"; "else"; "end"; "escape"; "except"; "exclusive";
  "exists"; "explain"; "false"; "fail"; "for"; "foreign"; "from";
  "full"; "glob"; "group"; "having"; "if"; "ignore"; "immediate"; "in";
  "index"; "indexed"; "initially"; "inner"; "insert"; "instead";
  "intersect"; "into"; "is"; "isnull"; "join"; "key"; "left"; "like";
  "limit"; "match"; "minus"; "natural"; "not"; "notnull"; "null"; "of";
  "offset"; "on"; "or"; "order"; "outer"; "plan"; "pragma"; "primary";
  "query"; "raise"; "references"; "reindex"; "rename"; "replace";
  "restrict"; "right"; "rollback"; "row"; "rownum"; "select"; "set";
  "sysdate"; "systime"; "systimestamp"; "table"; "temp"; "temporary";
  "then"; "to"; "today"; "transaction"; "trigger"; "true"; "union";
  "unique"; "update"; "using"; "vacuum"; "values"; "view"; "virtual";
  "when"; "where"
].

(** The quote characters given to the constructor, lines 130-134. *)
Definition initial_quote : ascii := "034"%char.
Definition escape_quote : ascii := "034"%char.

(** [_unquote_identifier], lines 136-137. *)
Definition _unquote_identifier (identifier : string) : string :=
  strip "034"%char identifier.

(** The two methods the dialect calls on its preparer that the class
    inherits from SQLAlchemy's [compiler.IdentifierPreparer].  That class is
    not part of this repository, so the dialect is parametric in them. *)
Record inherited : Type := Inherited {
  _requires_quotes : string -> bool;
  _unescape_identifier : string -> string
}.

End IdentifierPreparer.

(** ** What a method does besides returning: the trace *)

Module Trace.

Inductive event : Type :=
  | Warn (msg : string)        (* [util.warn] *)
  | Execute (stmt : string)    (* a statement handed to the executor *)
  | DoRollback                 (* [do_rollback] on the DBAPI connection *)
  | DoCommit.                  (* [do_commit] on the DBAPI connection *)

(** A computation extends the trace and returns or raises; what was
    recorded before an exception stays recorded. *)
Definition M (A : Type) : Type := list event -> list event * result A.

Global Instance M_ret : MRet M := fun A a t => (t, Ok a).
Global Instance M_bind : MBind M := fun A B f c t =>
  match c t with
  | (t', Ok a) => f a t'
  | (t', Raise e) => (t', Raise e)
  end.

Definition lift {A} (r : result A) : M A := fun t => (t, r).
Definition raise {A} (e : exn) : M A := lift (Raise e).
Definition emit (e : event) : M unit := fun t => (t ++ [e], Ok tt).

(** Running a method from an empty trace. *)
Definition exec {A} (c : M A) : list event * result A := c [].

Fixpoint for_each_M {A B} (f : A -> M B) (xs : list A) : M (list B) :=
  match xs with
  | [] => mret []
  | x :: xs' => y ← f x; ys ← for_each_M f xs'; mret (y :: ys)
  end.

(** The executor: the outcome of each statement text, of a rollback and of
    a commit on the underlying connection.  A row is a list of cells. *)
Record connection : Type := Connection {
  cursor_execute : string -> result (list (list pystr));
  dbapi_rollback : result unit;
  dbapi_commit : result unit
}.

Definition execute (conn : connection) (stmt : string)
    : M (list (list pystr)) :=
  _ ← emit (Execute stmt); lift (cursor_execute conn stmt).

Definition do_rollback (conn : connection) : M unit :=
  _ ← emit DoRollback; lift (dbapi_rollback conn).

Definition do_commit (conn : connection) : M unit :=
  _ ← emit DoCommit; lift (dbapi_commit conn).

End Trace.

Import Trace.

(** ** [H2Compiler] *)

Module H2Compiler.

Section Compiler.

(** [self.process(sql.literal(n))]: how the surrounding compiler renders
a literal; SQLAlchemy's, so a parameter here. *)
Variable process_literal : Z -> string.

(** [limit_clause], lines 65-73, from [select._limit] and
[select._offset]. *)
Definition limit_clause (_limit _offset : option Z) : string :=
  let text := EmptyString in
  let text :=
  match _limit with
  | Some l => text +:+ String newline " LIMIT " +:+ process_literal l
  | None => text
  end in
  let text :=
  match _offset with
  | Some o =>
      let text :=
        match _limit with
        | None => text +:+ String newline " LIMIT NULL"
        | Some _ => text
        end in
      text +:+ " OFFSET " +:+ process_literal o
  | None => text
  end in
  text.

End Compiler.

(** [for_update_clause], lines 37-38. *)
Definition for_update_clause : string := EmptyString.

End H2Compiler.

(** ** [H2Dialect] *)

Module H2Dialect.

Import IdentifierPreparer.

(** The classes of [sqlalchemy.types] the dialect names. *)
Inductive sqltype : Type :=
  | BIGINT | BINARY | BLOB | BOOLEAN | CHAR | CLOB | DATE | DATETIME
  | DECIMAL | INTEGER | SMALLINT | TIME | TIMESTAMP | VARCHAR | NUMERIC.

(** A column type: a class called with positional arguments, or
    [sqltypes.NULLTYPE]. *)
Inductive coltype : Type :=
  | Instance (cls : sqltype) (args : list Z)
  | NULLTYPE.

(** [getattr(sqltypes, type_name)] for the names of lines 172-185. *)
Definition sqltypes_named : list (string * sqltype) := [
  ("BIGINT", BIGINT); ("BINARY", BINARY); ("BLOB", BLOB);
  ("BOOLEAN", BOOLEAN); ("CHAR", CHAR); ("CLOB", CLOB); ("DATE", DATE);
  ("DATETIME", DATETIME); ("DECIMAL", DECIMAL); ("INTEGER", INTEGER);
  ("SMALLINT", SMALLINT); ("TIME", TIME); ("TIMESTAMP", TIMESTAMP);
  ("VARCHAR", VARCHAR)
].

(** [ischema_names], lines 170-188: the loop fills the dict, then
    ['DOUBLE'] is added. *)
Definition ischema_names : gmap string sqltype :=
  <["DOUBLE" := NUMERIC]>
    (foldl (fun d '(type_name, cls) => <[type_name := cls]> d) ∅
           sqltypes_named).

(** A row of the statement of lines 328-353, typed by its [typemap]. *)
Record column_row : Type := ColumnRow {
  COLUMN_NAME : string;
  TYPE_NAME : string;
  COLUMN_DEFAULT : pystr;
  IS_NULLABLE : string;
  AUTO_INCREMENT : option bool;
  CHARACTER_MAXIMUM_LENGTH : option Z
}.

(** The dict built at lines 400-403. *)
Record column_info : Type := ColumnInfo {
  col_name : pystr;
  col_type : coltype;
  col_nullable : bool;
  col_default : pystr;
  col_autoincrement : option bool
}.

(** The dict built at lines 452-455. *)
Record pk_constraint : Type := PkConstraint {
  pk_constrained_columns : list pystr;
  pk_name : pystr
}.

(** The dict built at lines 516-522. *)
Record fkey_d : Type := FKey {
  fk_name : pystr;
  fk_constrained_columns : list pystr;
  fk_referred_schema : pystr;
  fk_referred_table : pystr;
  fk_referred_columns : list pystr
}.

(** A row of the statement of lines 534-548. *)
Record index_row : Type := IndexRow {
  INDEX_NAME : string;
  NON_UNIQUE : bool;
  IDX_COLUMN_NAME : string;
  INDEX_TYPE_NAME : string
}.

(** The dict [index_d]: created as [{'column_names': []}], its keys
    ['name'] and ['unique'] are set afterwards. *)
Record index_d : Type := IndexD {
  idx_name : option pystr;
  idx_column_names : list pystr;
  idx_unique : option bool
}.

Global Instance index_d_inhabited : Inhabited index_d :=
  populate (IndexD None [] None).

(** The dicts live in a store; [index_names] and [indexes] hold references
    to them, so that an update through one is seen through the other. *)
Record index_state : Type := IndexState {
  store : list index_d;
  index_names : gmap pystr nat;
  indexes : list nat
}.

(** ['NEXT VALUE FOR .*\.SYSTEM_SEQUENCE_.*'], line 367. *)
Definition system_sequence_pattern : regex :=
  Str "NEXT VALUE FOR " ⋅ Star true dot ⋅ Str ".SYSTEM_SEQUENCE_"
    ⋅ Star true dot.

(** The type names of lines 377-383. *)
Definition fixed_type_names : list string :=
  ["INT"; "INTEGER"; "DATE"; "TIMESTAMP"; "CLOB"].

(** ['FOREIGN KEY\((.*?)\).*?REFERENCES (?:(.*?)\.)?(.*?)\((.*?)\)'],
    line 484. *)
Definition foreign_key_pattern : regex :=
  Str "FOREIGN KEY(" ⋅ Group 1 (Star false dot) ⋅ Str ")"
    ⋅ Star false dot ⋅ Str "REFERENCES "
    ⋅ Opt (Group 2 (Star false dot) ⋅ Str ".")
    ⋅ Group 3 (Star false dot) ⋅ Str "("
    ⋅ Group 4 (Star false dot) ⋅ Str ")".

(** [r'\s*,\s*'], line 500, and [r'\s*,\s'], line 513. *)
Definition constrained_separator : regex :=
  Star true space ⋅ Str "," ⋅ Star true space.
Definition referred_separator : regex :=
  Star true space ⋅ Str "," ⋅ One space.

(** [row[0]] *)
Definition first_cell (row : list pystr) : result pystr :=
  match row with
  | cell :: _ => Ok cell
  | [] => Raise IndexError
  end.

Section Dialect.

(** [self.identifier_preparer], as far as it is inherited. *)
Variable identifier_preparer : inherited.

(** [normalize_name], lines 194-205.  Names are byte strings here, on
    which [encode] is the identity. *)
Definition normalize_name (name : pystr) : pystr :=
  match name with
  | None => None
  | Some name =>
      if String.eqb (upper name) name
         && negb (_requires_quotes identifier_preparer (lower name))
      then Some (lower name)
      else Some name
  end.

(** [denormalize_name], lines 207-220; [decode] is the identity too. *)
Definition denormalize_name (name : pystr) : pystr :=
  match name with
  | None => None
  | Some name =>
      if String.eqb (lower name) name
         && negb (_requires_quotes identifier_preparer (lower name))
      then Some (upper name)
      else Some name
  end.

(** [_get_default_schema_name], lines 262-263. *)
Definition _get_default_schema_name : pystr :=
  normalize_name (Some "public").

(** [[self.normalize_name(row[0]) for row in rs]] *)
Definition normalized_first_cells (rs : list (list pystr))
    : result (list pystr) :=
  for_each (fun row => cell ← first_cell row; Ok (normalize_name cell)) rs.

(** [get_schema_names], lines 250-260. *)
Definition get_schema_names (conn : connection) : M (list pystr) :=
  rp ← execute conn "SELECT SCHEMA_NAME FROM INFORMATION_SCHEMA.SCHEMATA";
  lift (normalized_first_cells rp).

(** [get_view_names], lines 305-312.  The local [s] is bound in the branch
    of [schema is None] only; [None] below is the unbound local, and
    reading it raises before [connection.execute] is entered. *)
Definition get_view_names (conn : connection) (schema : pystr)
    : M (list pystr) :=
  let '(schema, s) :=
    match schema with
    | None =>
        (_get_default_schema_name,
         Some "SELECT TABLE_NAME FROM INFORMATION_SCHEMA.VIEWS")
    | Some _ => (schema, None)
    end in
  s ← match s : option string with
      | Some text => mret text
      | None => raise UnboundLocalError
      end;
  rs ← execute conn s;
  lift (normalized_first_cells rs).

(** *** [get_columns], lines 322-405 *)

(** Lines 364-371: the default and the autoincrement flag. *)
Definition default_and_autoincrement (row : column_row)
    : pystr * option bool :=
  match COLUMN_DEFAULT row with
  | Some default =>
      match search system_sequence_pattern default with
      | Some _ => (None, Some true)
      | None => (Some default, AUTO_INCREMENT row)
      end
  | None => (None, AUTO_INCREMENT row)
  end.

(** Lines 362 and 375-386: the positional arguments of the type. *)
Definition type_args (row : column_row) : list Z :=
  if String.eqb (TYPE_NAME row) "DOUBLE" then [53%Z]
  else if bool_decide (TYPE_NAME row ∈ fixed_type_names) then []
  else if truthy_int (CHARACTER_MAXIMUM_LENGTH row)
       then [default 0%Z (CHARACTER_MAXIMUM_LENGTH row)]
       else [].

(** The text of lines 396-397.  By the [typemap] of lines 345-352
    [type_name] is a unicode text, and [name] is the byte string
    [normalize_name] has encoded, so the [%] decodes [name] as ASCII, and
    raises where it cannot. *)
Definition unrecognized_type_warning (type_name : string) (name : pystr)
    : result string :=
  name ← decode_ascii (default "None" name);
  Ok ("Did not recognize type '" +:+ type_name +:+ "' of column '"
        +:+ name +:+ "'").

(** The body of the loop, lines 360-404.  The text of the warning is
    built before [util.warn] is called. *)
Definition column_of_row (row : column_row) : M column_info :=
  let '(default, autoincrement) := default_and_autoincrement row in
  let name := normalize_name (Some (COLUMN_NAME row)) in
  let nullable := String.eqb (IS_NULLABLE row) "YES" in
  let args := type_args row in
  coltype ←
    match ischema_names !! TYPE_NAME row with
    | Some cls => mret (Instance cls args)
    | None =>
        msg ← lift (unrecognized_type_warning (TYPE_NAME row) name);
        _ ← emit (Warn msg);
        mret NULLTYPE
    end;
  mret (ColumnInfo name coltype nullable default autoincrement).

(** [get_columns] from [rows = c.fetchall()] on. *)
Definition get_columns (rows : list column_row) : M (list column_info) :=
  for_each_M column_of_row rows.

(** *** [get_primary_keys] and [get_pk_constraint], lines 407-455 *)

(** From the fetched rows of the first statement on. *)
Definition get_primary_keys (rows : list (list pystr)) : result (list pystr) :=
  normalized_first_cells rows.

(** [scalar] is [c.scalar()] of the second statement. *)
Definition get_pk_constraint (rows : list (list pystr)) (scalar : pystr)
    : result pk_constraint :=
  cols ← get_primary_keys rows;
  let name := normalize_name scalar in
  Ok (PkConstraint cols name).

(** *** [get_foreign_keys], lines 457-524 *)

(** [_prepare_name], lines 492-497. *)
Definition _prepare_name (raw_name : string) : pystr :=
  normalize_name
    (Some (_unquote_identifier
             (_unescape_identifier identifier_preparer raw_name))).

(** The body of the loop, lines 482-523: one row [(conname, condef)].
    [.groups()] on a failed search is an [AttributeError]; in a match the
    groups 1, 3 and 4 have taken part. *)
Definition fkey_of_row (schema default_schema_name : pystr)
    (row : pystr * string) : result fkey_d :=
  let '(conname, condef) := row in
  m ← match search foreign_key_pattern condef with
      | Some mo => Ok (groups 4 mo)
      | None => Raise AttributeError
      end;
  match m with
  | [Some raw_constrained_columns; raw_referred_schema;
     Some raw_referred_table; Some raw_referred_columns] =>
      let constrained_columns :=
        _prepare_name
          <$> split constrained_separator raw_constrained_columns in
      let referred_schema :=
        if truthy_str raw_referred_schema
        then _prepare_name (default EmptyString raw_referred_schema)
        else schema in
      let referred_schema :=
        if bool_decide (referred_schema = default_schema_name)
        then None else referred_schema in
      let referred_table := _prepare_name raw_referred_table in
      let referred_columns :=
        _prepare_name <$> split referred_separator raw_referred_columns in
      Ok (FKey conname constrained_columns referred_schema
               referred_table referred_columns)
  | _ => Raise AttributeError
  end.

(** [get_foreign_keys] from [c.fetchall()] on. *)
Definition get_foreign_keys (schema : pystr) (rows : list (pystr * string))
    : result (list fkey_d) :=
  let default_schema_name := _get_default_schema_name in
  let schema :=
    match schema with
    | None => default_schema_name
    | Some _ => schema
    end in
  for_each (fkey_of_row schema default_schema_name) rows.

(** *** [get_indexes], lines 526-571 *)

Definition update_index_d (name col : pystr) (unique : bool)
    (d : index_d) : index_d :=
  IndexD (Some name) (idx_column_names d ++ [col]) (Some (negb unique)).

(** The body of the loop, lines 553-570. *)
Definition index_step (include_auto_indexes : bool) (st : index_state)
    (row : index_row) : index_state :=
  if negb include_auto_indexes
     && String.eqb (INDEX_TYPE_NAME row) "PRIMARY KEY"
  then st
  else
    let col := normalize_name (Some (IDX_COLUMN_NAME row)) in
    let name := normalize_name (Some (INDEX_NAME row)) in
    let '(ref, st) :=
      match index_names st !! name with
      | Some ref => (ref, st)
      | None =>
          let ref := length (store st) in
          (ref, IndexState (store st ++ [IndexD None [] None])
                           (<[name := ref]> (index_names st))
                           (indexes st ++ [ref]))
      end in
    IndexState
      (alter (update_index_d name col (NON_UNIQUE row)) ref (store st))
      (index_names st) (indexes st).

(** [get_indexes] from [c.fetchall()] on; the list returned holds the
    dicts the references of [indexes] point to. *)
Definition get_indexes (include_auto_indexes : bool)
    (rows : list index_row) : list index_d :=
  let st :=
    foldl (index_step include_auto_indexes) (IndexState [] ∅ []) rows in
  (fun ref => store st !!! ref) <$> indexes st.

End Dialect.

(** *** Two-phase commit, lines 573-598 *)

(** [do_prepare_twophase] *)
Definition do_prepare_twophase (conn : connection) (xid : string) : M unit :=
  _ ← execute conn ("PREPARE COMMIT " +:+ xid); mret tt.

(** [do_rollback_twophase] *)
Definition do_rollback_twophase (conn : connection) (xid : string)
    (is_prepared recover : bool) : M unit :=
  if is_prepared then
    _ ← execute conn ("ROLLBACK TRANSACTION " +:+ xid);
    do_rollback conn
  else do_rollback conn.

(** [do_commit_twophase] *)
Definition do_commit_twophase (conn : connection) (xid : string)
    (is_prepared recover : bool) : M unit :=
  if is_prepared then
    _ ← execute conn ("COMMIT TRANSACTION " +:+ xid);
    do_rollback conn
  else do_commit conn.

End H2Dialect.

(** ** [H2Dialect]: the lookups that bind names *)

Module H2Lookup.

Import IdentifierPreparer H2Dialect.

(** [sql.text(text, bindparams=...)]: the parameters are bound by name. *)
Record text_clause : Type := TextClause {
  text : string;
  bindparams : gmap string string
}.

(** [connection.execute] on such a statement. *)
Definition executor : Type := text_clause -> result (list (list pystr)).

(** [unicode(v)]; of [None] it is the text [None]. *)
Definition unicode (v : pystr) : string := default "None" v.

(** The texts of lines 239-243, 269-273 and 286-290: a triple-quoted text
    starts and ends with a line break and the indentation. *)
Definition indented (line : string) : string :=
  String newline ("            " +:+ line).

Definition table_names_sql : string :=
  indented "SELECT table_name FROM information_schema.tables"
    +:+ indented "WHERE table_type='TABLE' AND table_schema=:schema"
    +:+ indented "ORDER BY table_name"
    +:+ indented EmptyString.

Definition has_table_sql : string :=
  indented "SELECT table_name FROM information_schema.tables"
    +:+ indented "WHERE table_type='TABLE' AND table_schema=:schema"
    +:+ indented "AND table_name=:table"
    +:+ indented EmptyString.

Definition has_sequence_sql : string :=
  indented "SELECT sequence_name FROM information_schema.sequences"
    +:+ indented "WHERE sequence_schema=:schema"
    +:+ indented "AND sequence_name=:sequence"
    +:+ indented EmptyString.

Section Dialect.

Variable identifier_preparer : inherited.

(** [_get_bindparams], lines 222-232, from the keyword arguments. *)
Definition _get_bindparams (kwargs : gmap string pystr) : gmap string string :=
  (fun v => unicode (denormalize_name identifier_preparer v)) <$> kwargs.

(** [table_names], lines 234-248. *)
Definition table_names (connection : executor) (schema : pystr)
    : result (list pystr) :=
  let schema :=
    match schema with
    | None => _get_default_schema_name identifier_preparer
    | Some _ => schema
    end in
  let s :=
    TextClause table_names_sql (_get_bindparams (<["schema" := schema]> ∅)) in
  rs ← connection s;
  normalized_first_cells identifier_preparer rs.

(** [rs.fetchone() is not None] *)
Definition fetched_one (rs : list (list pystr)) : bool :=
  match rs with
  | [] => false
  | _ :: _ => true
  end.

(** [has_table], lines 265-279. *)
Definition has_table (connection : executor) (table_name : string)
    (schema : pystr) : result bool :=
  let schema :=
    match schema with
    | None => _get_default_schema_name identifier_preparer
    | Some _ => schema
    end in
  let s :=
    TextClause has_table_sql
      (_get_bindparams
         (<["table" := Some table_name]> (<["schema" := schema]> ∅))) in
  rs ← connection s;
  Ok (fetched_one rs).

(** [has_sequence], lines 281-299. *)
Definition has_sequence (connection : executor) (sequence_name : string)
    (schema : pystr) : result bool :=
  let schema :=
    match schema with
    | None => _get_default_schema_name identifier_preparer
    | Some _ => schema
    end in
  let s :=
    TextClause has_sequence_sql
      (_get_bindparams
         (<["sequence" := Some sequence_name]> (<["schema" := schema]> ∅)))
    in
  rs ← connection s;
  Ok (fetched_one rs).

(** [get_table_names], lines 301-303. *)
Definition get_table_names (connection : executor) (schema : pystr)
    : result (list pystr) :=
  table_names connection schema.

End Dialect.

End H2Lookup.

(** ** [H2_zxjdbc], [sqlalchemy_h2/dialect/zxjdbc.py] *)

Module H2_zxjdbc.

(** [r"\[SQLCode\: (\d+)\]"], line 52. *)
Definition sqlcode_pattern : regex :=
  Str "[SQLCode: " ⋅ Group 1 (plus is_digit) ⋅ Str "]".

(** [int(c)] for a text of decimal digits. *)
Definition digit_value (c : ascii) : Z := Z.of_nat (nat_of_ascii c - 48).

Fixpoint int_from (acc : Z) (c : string) : Z :=
  match c with
  | EmptyString => acc
  | String d c' => int_from (10 * acc + digit_value d) c'
  end.

Definition int (c : string) : Z := int_from 0 c.

(** [_extract_error_code], lines 49-55, from [str(exception.orig.args)]
    on.  [m.group(1)] on a failed search is an [AttributeError]; the
    method falls off its end, returning [None], when the group is empty. *)
Definition _extract_error_code (args : string) : result (option Z) :=
  match search sqlcode_pattern args with
  | None => Raise AttributeError
  | Some m =>
      let c := m_groups m !! 1 in
      if truthy_str c then Ok (Some (int (default EmptyString c)))
      else Ok None
  end.

End H2_zxjdbc.

(** ** What the patterns mean

    [matches r w rest]: the pattern [r] can match the text [w] when [rest]
    follows it ([$] looks at what follows). *)

Module ReSpec.

Fixpoint all_chars (p : ascii -> bool) (w : string) : Prop :=
  match w with
  | EmptyString => True
  | String c w' => p c = true ∧ all_chars p w'
  end.

Fixpoint matches (r : regex) (w rest : string) : Prop :=
  match r with
  | Str lit => w = lit
  | One p => ∃ c, w = String c EmptyString ∧ p c = true
  | Star _ p => all_chars p w
  | Cat r1 r2 =>
      ∃ w1 w2, w = w1 +:+ w2 ∧ matches r1 w1 (w2 +:+ rest)
               ∧ matches r2 w2 rest
  | Opt r' => w = EmptyString ∨ matches r' w rest
  | Group _ r' => matches r' w rest
  | Eol =>
      w = EmptyString
      ∧ (rest = EmptyString ∨ rest = String newline EmptyString)
  end.

(** The groups that take part in every match of a pattern. *)
Fixpoint sure_groups (r : regex) : list nat :=
  match r with
  | Cat r1 r2 => sure_groups r1 ++ sure_groups r2
  | Group n r' => n :: sure_groups r'
  | Str _ | One _ | Star _ _ | Opt _ | Eol => []
  end.

(** A default value that refers to one of the sequences H2 creates for an
    auto-increment column: [NEXT VALUE FOR <schema>.SYSTEM_SEQUENCE_<...>]
    somewhere in it, the schema on one line. *)
Definition system_sequence_default (d : string) : Prop :=
  ∃ before schema after,
    d = before +:+ "NEXT VALUE FOR " +:+ schema +:+ ".SYSTEM_SEQUENCE_"
          +:+ after
    ∧ all_chars dot schema.

End ReSpec.

(** ** What [get_indexes] is meant to compute

    The rows that take part, with their names normalized, are grouped by
    index name: a row adds its column to the descriptor of its index and
    sets the flag, and a first row of an index adds a descriptor at the
    end. *)

Module IndexSpec.

Import IdentifierPreparer H2Dialect.

Record named_row : Type := NamedRow {
  nr_name : pystr;
  nr_non_unique : bool;
  nr_column : pystr
}.

(** The rows of the catalog that take part in the result. *)
Definition considered (include_auto_indexes : bool) (rows : list index_row)
    : list index_row :=
  if include_auto_indexes then rows
  else filter (fun row => INDEX_TYPE_NAME row ≠ "PRIMARY KEY") rows.

Definition normalize_row (P : inherited) (row : index_row) : named_row :=
  NamedRow (normalize_name P (Some (INDEX_NAME row))) (NON_UNIQUE row)
           (normalize_name P (Some (IDX_COLUMN_NAME row))).

Definition add_row (ds : list index_d) (r : named_row) : list index_d :=
  match list_find (fun d => idx_name d = Some (nr_name r)) ds with
  | Some (i, _) =>
      alter (fun d => IndexD (Some (nr_name r))
                             (idx_column_names d ++ [nr_column r])
                             (Some (negb (nr_non_unique r)))) i ds
  | None =>
      ds ++ [IndexD (Some (nr_name r)) [nr_column r]
                    (Some (negb (nr_non_unique r)))]
  end.

Definition grouped (rows : list named_row) : list index_d :=
  foldl add_row [] rows.

(** The rows of the index named [n]. *)
Definition rows_of (n : pystr) (rows : list named_row) : list named_row :=
  filter (fun r => nr_name r = n) rows.

(** The store, the dict of names and the list of references stand for a
    list of descriptors. *)
Definition represents (st : index_state) (ds : list index_d) : Prop :=
  store st = ds
  ∧ indexes st = seq 0 (length ds)
  ∧ ∀ n, index_names st !! n
         = fst <$> list_find (λ d, idx_name d = Some n) ds.

(** The descriptor [d] is the one of the index [n] among [rows]: its columns
    are the columns of the rows of [n], in their order, and its flag is the
    negation of [non_unique] in the last of them. *)
Definition describes (rows : list named_row) (d : index_d) : Prop :=
  ∃ n r,
    idx_name d = Some n
    ∧ idx_column_names d = nr_column <$> rows_of n rows
    ∧ last (rows_of n rows) = Some r
    ∧ idx_unique d = Some (negb (nr_non_unique r)).

End IndexSpec.

(** ** A preparer to run the dialect with *)

Module DefaultPreparer.

Import IdentifierPreparer ReSpec.

(** Modelled from the spec: the methods [_requires_quotes] and
    [_unescape_identifier] of SQLAlchemy's [compiler.IdentifierPreparer],
    which this repository inherits and does not contain.  By sections 4.1
    and 4.3 a name requires quotes when it is a reserved word in whatever
    case or contains a special character, and by section 8 a mixed-case
    name is rendered quoted.  The special characters are taken to be all
    but letters, digits, the underscore and the dollar sign (the pattern
    [^[A-Z0-9_$]+$] without regard to case), and a digit or a dollar sign
    in the first place. *)
Definition legal_char (c : ascii) : bool :=
  is_upper c || is_lower c || is_digit c
  || Ascii.eqb c "_"%char || Ascii.eqb c "$"%char.

Definition legal_characters : regex := plus legal_char ⋅ Eol.

Definition illegal_initial_character (c : ascii) : bool :=
  is_digit c || Ascii.eqb c "$"%char.

Definition requires_quotes (value : string) : bool :=
  let lc_value := lower value in
  bool_decide (lc_value ∈ reserved_words)
  || match value with
     | String c _ => illegal_initial_character c
     | EmptyString => false
     end
  || negb (bool_decide (is_Some (re_match legal_characters value)))
  || negb (String.eqb lc_value value).

(** Modelled from the spec: unescaping undoes the doubling of the quote
    character that section 4.3 prescribes for quoted names,
    [value.replace(escape_to_quote, escape_quote)]. *)
Definition unescape_identifier (value : string) : string :=
  replace2 escape_quote escape_quote (String escape_quote EmptyString) value.

Definition preparer : inherited :=
  Inherited requires_quotes unescape_identifier.

(** A name made of letters, digits, underscores and dollar signs that does
    not start with a digit or a dollar sign: no character of it asks for
    quotes. *)
Definition plain_identifier (v : string) : Prop :=
  match v with
  | EmptyString => False
  | String c _ => illegal_initial_character c = false
  end
  ∧ all_chars legal_char v.

End DefaultPreparer.

(** ** Inputs used in examples *)

Module Examples.

Import H2Dialect.

(** The preparer of the examples. *)
Definition P : IdentifierPreparer.inherited := DefaultPreparer.preparer.

(** Literals rendered inline, in decimal. *)
Definition decimal : Z -> string := pretty.

(** An executor on which every statement succeeds. *)
Definition working_connection : connection :=
  Connection (fun _ => Ok [[Some "V1"]; [Some "MixedCase"]]) (Ok tt) (Ok tt).

(** An executor that rejects every statement. *)
Definition failing_connection : connection :=
  Connection (fun _ => Raise (DBAPIError "rejected")) (Ok tt) (Ok tt).

(** Rows for [get_columns]. *)
Definition sample_columns : list H2Dialect.column_row := [
  H2Dialect.ColumnRow "ID" "INTEGER"
    (Some "(NEXT VALUE FOR PUBLIC.SYSTEM_SEQUENCE_AB12)") "NO"
    (Some false) (Some 10%Z);
  H2Dialect.ColumnRow "X" "FROBNICATE" None "YES" None None;
  H2Dialect.ColumnRow "D" "DOUBLE" (Some "1.0") "YES" (Some false)
    (Some 17%Z);
  H2Dialect.ColumnRow "NAME" "VARCHAR" None "YES" (Some false)
    (Some 255%Z)
].

Definition blob_column : H2Dialect.column_row :=
  H2Dialect.ColumnRow "B" "BLOB" None "YES" (Some false)
    (Some 2147483647%Z).

(** Rows for [get_indexes]: a three-column index and the index of the
    primary key. *)
Definition sample_indexes : list H2Dialect.index_row := [
  H2Dialect.IndexRow "IDX_ABC" true "C1" "INDEX";
  H2Dialect.IndexRow "PRIMARY_KEY_1" false "ID" "PRIMARY KEY";
  H2Dialect.IndexRow "IDX_ABC" true "C2" "INDEX";
  H2Dialect.IndexRow "IDX_ABC" true "C3" "INDEX"
].

(** [sample_indexes] without the row of the primary key, names
    normalized. *)
Definition sample_named_rows : list IndexSpec.named_row := [
  IndexSpec.NamedRow (Some "idx_abc") true (Some "c1");
  IndexSpec.NamedRow (Some "idx_abc") true (Some "c2");
  IndexSpec.NamedRow (Some "idx_abc") true (Some "c3")
].

(** The column name [café] in UTF-8: the last letter is the two bytes 195
    and 169. *)
Definition accented_name : string :=
  "caf" +:+ String "195"%char (String "169"%char EmptyString).

(** Rows for [get_columns]: a column of the type [REAL], which is not in
    [ischema_names], with that name, and an integer column after it. *)
Definition accented_columns : list H2Dialect.column_row := [
  H2Dialect.ColumnRow accented_name "REAL" None "YES" (Some false)
    (Some 7%Z);
  H2Dialect.ColumnRow "ID" "INTEGER" None "NO" (Some false) (Some 10%Z)
].

(** Rows for [get_indexes]: the two indexes [IDX] and [idx] of one table,
    the first unique and the second not. *)
Definition case_indexes : list H2Dialect.index_row := [
  H2Dialect.IndexRow "IDX" false "A" "INDEX";
  H2Dialect.IndexRow "idx" true "B" "INDEX"
].

Definition bigint_column : H2Dialect.column_row :=
  H2Dialect.ColumnRow "N" "BIGINT" None "NO" (Some true) (Some 19%Z).

(** Rows for [get_foreign_keys]: a definition as H2 prints it, with a space
    after each comma, and one without. *)
Definition spaced_foreign_key : pystr * string :=
  (Some "FK_CHILD_PARENT",
   "FOREIGN KEY(a, b) REFERENCES OTHER_SCHEMA.parent(x, y)").

Definition default_schema_foreign_key : pystr * string :=
  (Some "FK_CHILD_PARENT",
   "FOREIGN KEY(a, b) REFERENCES PUBLIC.parent(x, y)").

Definition unspaced_foreign_key : pystr * string :=
  (Some "FK_CHILD_PARENT", "FOREIGN KEY(a,b) REFERENCES parent(x,y)").

End Examples.

(** ** Texts used in statements about names and definitions *)

Module TextSpec.

Import ReSpec IdentifierPreparer H2Dialect.

(** A name in the form the dialect hands out: normalizing it again changes
    nothing. *)
Definition normalized (P : inherited) (name : pystr) : Prop :=
  normalize_name P name = name.

(** No character of [w] is [c]. *)
Definition lacks (c : ascii) (w : string) : Prop :=
  all_chars (fun d => negb (Ascii.eqb d c)) w.

(** [n] double quotes. *)
Fixpoint quotes (n : nat) : string :=
  match n with
  | O => EmptyString
  | S n' => String "034"%char (quotes n')
  end.

(** A text that neither starts nor ends with a double quote. *)
Definition unquoted (s : string) : Prop :=
  (∀ s', s ≠ String "034"%char s')
  ∧ (∀ s', s ≠ s' +:+ String "034"%char EmptyString).

(** A continuation that fails on every text that does not start with
    [c]. *)
Definition needs (c : ascii) (k : string -> option outcome) : Prop :=
  ∀ s, (∀ s', s ≠ String c s') → k s = None.

(** A text that is empty or starts with a character outside [p]: a
    repetition over [p] stops in front of it. *)
Definition stops (p : ascii -> bool) (s : string) : Prop :=
  match s with
  | EmptyString => True
  | String d _ => p d = false
  end.

(** A column name in a list of columns: not empty, and without commas and
    white space. *)
Definition name_char (c : ascii) : bool :=
  negb (Ascii.eqb c ",") && negb (space c).

Definition column_name (w : string) : Prop :=
  w ≠ EmptyString ∧ all_chars name_char w.

(** The continuation of a whole match. *)
Definition final : string -> option outcome := fun rest => Some (∅, rest).

End TextSpec.

(** ** The definitions of foreign keys [get_foreign_keys] reads *)

Module ForeignKeySpec.

Import ReSpec TextSpec.

(** The text of a definition: the constrained columns in parentheses after
    [FOREIGN KEY], the referred table after [REFERENCES ], with its schema
    and a dot in front of it or without, and the referred columns in
    parentheses. *)
Definition definition_text (before cols mid : string) (sch : option string)
    (tbl rcols tail : string) : string :=
  before +:+ "FOREIGN KEY(" +:+ cols +:+ ")" +:+ mid +:+ "REFERENCES "
    +:+ match sch with
        | Some s => s +:+ "."
        | None => EmptyString
        end
    +:+ tbl +:+ "(" +:+ rcols +:+ ")" +:+ tail.

(** The parts are on one line and do not hold the character that ends
    them; [FOREIGN KEY(] and [REFERENCES ] do not start earlier; without a
    schema there is no dot after [REFERENCES ]. *)
Definition well_formed (before cols mid : string) (sch : option string)
    (tbl rcols tail : string) : Prop :=
  lacks "F" before
  ∧ (all_chars dot cols ∧ lacks ")" cols)
  ∧ (all_chars dot mid ∧ lacks "R" mid)
  ∧ (all_chars dot tbl ∧ lacks "(" tbl)
  ∧ (all_chars dot rcols ∧ lacks ")" rcols)
  ∧ match sch with
    | Some s => all_chars dot s ∧ lacks "." s
    | None => lacks "." tbl ∧ lacks "." rcols ∧ lacks "." tail
    end.

(** A text with a part of the shape the pattern of line 484 describes. *)
Definition shaped (condef : string) : Prop :=
  ∃ before cols mid sch tbl rcols tail,
    condef = definition_text before cols mid sch tbl rcols tail
    ∧ all_chars dot cols ∧ all_chars dot mid
    ∧ match sch with
      | Some s => all_chars dot s
      | None => True
      end
    ∧ all_chars dot tbl ∧ all_chars dot rcols.

End ForeignKeySpec.

(** ** The error codes in the messages of the driver *)

Module SqlCodeSpec.

Import ReSpec.

(** The text holds [[SQLCode: <digits>]]. *)
Definition has_sqlcode (args : string) : Prop :=
  ∃ before digits after,
    args = before +:+ "[SQLCode: " +:+ digits +:+ "]" +:+ after
    ∧ digits ≠ EmptyString ∧ all_chars is_digit digits.

End SqlCodeSpec.

(** ** What the reflection methods record and in which order *)

Module ReflectionSpec.

Import IdentifierPreparer H2Dialect IndexSpec.

(** A row [get_columns] cannot write its warning for: the type is not in
    [ischema_names] and the name of the column is not ASCII. *)
Definition undecodable (row : column_row) : bool :=
  bool_decide (ischema_names !! TYPE_NAME row = None)
  && negb (is_ascii (COLUMN_NAME row)).

(** The rows in front of the first such row. *)
Fixpoint before_failure (rows : list column_row) : list column_row :=
  match rows with
  | [] => []
  | row :: rows' =>
      if undecodable row then [] else row :: before_failure rows'
  end.

(** The warning a row of [get_columns] leaves behind, word for word. *)
Definition warnings_of (P : inherited) (row : column_row) : list event :=
  match ischema_names !! TYPE_NAME row with
  | Some _ => []
  | None =>
      [Warn ("Did not recognize type '" +:+ TYPE_NAME row
               +:+ "' of column '"
               +:+ default "None" (normalize_name P (Some (COLUMN_NAME row)))
               +:+ "'")]
  end.

(** The names of a list in the order in which they first appear; [seen]
    holds the names passed already. *)
Fixpoint distinct (seen l : list pystr) : list pystr :=
  match l with
  | [] => []
  | n :: l' =>
      if decide (n ∈ seen) then distinct seen l'
      else n :: distinct (n :: seen) l'
  end.

Definition first_appearances (l : list pystr) : list pystr := distinct [] l.

End ReflectionSpec.

(** ** A catalog to look names up in *)

Module LookupExamples.

Import H2Lookup.

(** An executor that knows the table [USERS] and nothing else. *)
Definition sample_catalog : executor :=
  fun s =>
    if bool_decide (bindparams s !! "table" = Some "USERS")
    then Ok [[Some "USERS"]]
    else Ok [].

End LookupExamples.

(** * Properties *)

(** ** Strings *)

Module StringFacts.

Lemma app_cons (c : ascii) (s t : string) :
  String c s +:+ t = String c (s +:+ t).
Proof. reflexivity. Qed.

Lemma app_nil_l (s : string) : EmptyString +:+ s = s.
Proof. reflexivity. Qed.

Lemma app_nil_r (s : string) : s +:+ EmptyString = s.
Proof. induction s as [|c s IH]; [reflexivity|]. by rewrite app_cons, IH. Qed.

Lemma app_assoc (s t u : string) : (s +:+ t) +:+ u = s +:+ t +:+ u.
Proof. induction s as [|c s IH]; [reflexivity|]. by rewrite !app_cons, IH. Qed.

Lemma length_app (s t : string) :
  String.length (s +:+ t) = String.length s + String.length t.
Proof. induction s as [|c s IH]; [reflexivity|]. rewrite app_cons. simpl. by rewrite IH. Qed.

Lemma lower_char_idemp (c : ascii) : lower_char (lower_char c) = lower_char c.
Proof. by destruct c as [[] [] [] [] [] [] [] []]. Qed.


Lemma lower_idemp (s : string) : lower (lower s) = lower s.
Proof.
  induction s as [|c s IH]; [reflexivity|].
  unfold lower in *. simpl. by rewrite lower_char_idemp, IH.
Qed.


Lemma lower_nil_inv (s : string) : lower s = EmptyString → s = EmptyString.
Proof. by destruct s. Qed.

Lemma is_ascii_char_lower (c : ascii) :
  is_ascii_char (lower_char c) = is_ascii_char c.
Proof. by destruct c as [[] [] [] [] [] [] [] []]. Qed.

Lemma is_ascii_lower (s : string) : is_ascii (lower s) = is_ascii s.
Proof.
  induction s as [|c s IH]; [reflexivity|].
  unfold lower in *. simpl. by rewrite is_ascii_char_lower, IH.
Qed.

End StringFacts.

(** ** Statement compiler *)

Module CompilerFacts.

Import H2Compiler.

(** C4 as it is stated does not hold: the text the method returns starts
    on a new line, so it is not the bare [LIMIT 5]. *)
Lemma limit_clause_not_bare :
  limit_clause Examples.decimal (Some 5%Z) None ≠ "LIMIT 5".
Proof. vm_compute. discriminate. Qed.

(** C4, as the code has it.  The limit clause is empty when neither a
    limit nor an offset is given; otherwise it starts with a newline and a
    space, the limit is [LIMIT] followed by the rendering of the literal
    (or [LIMIT NULL] when only an offset is given), and the offset, if any,
    follows as [OFFSET] and its rendering.  With literals rendered in
    decimal this is newline, space and then [LIMIT 5], [LIMIT NULL OFFSET
    10] and [LIMIT 5 OFFSET 10]. *)
Theorem limit_clause_cases (process_literal : Z → string) (l o : Z) :
  limit_clause process_literal None None = EmptyString
  ∧ limit_clause process_literal (Some l) None
    = String newline " LIMIT " +:+ process_literal l
  ∧ limit_clause process_literal None (Some o)
    = String newline " LIMIT NULL OFFSET " +:+ process_literal o
  ∧ limit_clause process_literal (Some l) (Some o)
    = String newline " LIMIT " +:+ process_literal l
        +:+ " OFFSET " +:+ process_literal o
  ∧ limit_clause Examples.decimal (Some 5%Z) None = String newline " LIMIT 5"
  ∧ limit_clause Examples.decimal None (Some 10%Z)
    = String newline " LIMIT NULL OFFSET 10"
  ∧ limit_clause Examples.decimal (Some 5%Z) (Some 10%Z)
    = String newline " LIMIT 5 OFFSET 10".
Proof.
  unfold limit_clause. repeat split; reflexivity.
Qed.

End CompilerFacts.

(** ** Views and two-phase commit: what reaches the executor *)

Module ConnectionFacts.

Import IdentifierPreparer H2Dialect Examples.

Lemma default_schema_name_public (P : inherited) :
  _get_default_schema_name P = Some "public".
Proof. reflexivity. Qed.

(** C10.  Called with a schema, [get_view_names] raises the unbound-local
    error and nothing has been handed to the executor; called without one,
    it issues the statement once and returns the normalized first cells of
    the rows.  So a call that returns names is a call without a schema. *)
Theorem get_view_names_needs_no_schema (P : inherited) (conn : connection) :
  (∀ schema : string,
      exec (get_view_names P conn (Some schema))
      = ([], Raise UnboundLocalError))
  ∧ (∀ rs names,
      cursor_execute conn "SELECT TABLE_NAME FROM INFORMATION_SCHEMA.VIEWS"
      = Ok rs →
      normalized_first_cells P rs = Ok names →
      exec (get_view_names P conn None)
      = ([Execute "SELECT TABLE_NAME FROM INFORMATION_SCHEMA.VIEWS"],
         Ok names))
  ∧ (∀ schema t names,
      exec (get_view_names P conn schema) = (t, Ok names) → schema = None).
Proof.
  split; [|split].
  - intros schema. reflexivity.
  - intros rs names Hrs Hnames.
    unfold exec, get_view_names, execute, emit, lift, mbind, M_bind, mret,
      M_ret.
    simpl. by rewrite Hrs, Hnames.
  - intros [schema|] t names; [|done].
    discriminate.
Qed.

Lemma get_view_names_needs_no_schema_witness :
  exec (get_view_names P working_connection None)
  = ([Execute "SELECT TABLE_NAME FROM INFORMATION_SCHEMA.VIEWS"],
     Ok [Some "v1"; Some "MixedCase"])
  ∧ (None : pystr) = None.
Proof.
  pose proof (get_view_names_needs_no_schema P working_connection)
    as (_ & Hnone & Honly).
  split.
  - apply (Hnone [[Some "V1"]; [Some "MixedCase"]]); reflexivity.
  - apply (Honly None
             [Execute "SELECT TABLE_NAME FROM INFORMATION_SCHEMA.VIEWS"]
             [Some "v1"; Some "MixedCase"]).
    vm_compute. reflexivity.
Defined.

(** C9 as it is stated does not hold when the executor rejects the commit
    command: the exception leaves the method and no rollback is issued. *)
Lemma commit_twophase_failure_skips_rollback :
  DoRollback ∉ (exec (do_commit_twophase failing_connection "x1" true false)).1.
Proof.
  vm_compute. intros H. apply list_elem_of_In in H.
  destruct H as [H|[]]. discriminate.
Qed.

(** C9, as the code has it.  With [is_prepared] the command [COMMIT
    TRANSACTION <xid>] is handed to the executor first; when the executor
    returns, whatever it returns, a local rollback follows and its outcome
    is the outcome of the method; when the executor raises, the exception
    is the outcome and no rollback is issued.  Without [is_prepared] a
    local commit is all that happens. *)
Theorem commit_twophase_trace (conn : connection) (xid : string)
    (recover : bool) :
  (∀ rows,
      cursor_execute conn ("COMMIT TRANSACTION " +:+ xid) = Ok rows →
      exec (do_commit_twophase conn xid true recover)
      = ([Execute ("COMMIT TRANSACTION " +:+ xid); DoRollback],
         dbapi_rollback conn))
  ∧ (∀ e,
      cursor_execute conn ("COMMIT TRANSACTION " +:+ xid) = Raise e →
      exec (do_commit_twophase conn xid true recover)
      = ([Execute ("COMMIT TRANSACTION " +:+ xid)], Raise e))
  ∧ exec (do_commit_twophase conn xid false recover)
    = ([DoCommit], dbapi_commit conn).
Proof.
  unfold exec, do_commit_twophase, do_rollback, do_commit, execute, emit,
    lift, mbind, M_bind.
  split; [|split].
  - intros rows ->. simpl. by destruct (dbapi_rollback conn).
  - by intros e ->.
  - simpl. by destruct (dbapi_commit conn).
Qed.

Lemma commit_twophase_trace_witness :
  exec (do_commit_twophase working_connection "x1" true false)
  = ([Execute "COMMIT TRANSACTION x1"; DoRollback], Ok tt)
  ∧ exec (do_commit_twophase failing_connection "x1" true false)
    = ([Execute "COMMIT TRANSACTION x1"], Raise (DBAPIError "rejected")).
Proof.
  split.
  - apply (proj1 (commit_twophase_trace working_connection "x1" false)
             [[Some "V1"]; [Some "MixedCase"]]).
    reflexivity.
  - apply (proj1 (proj2 (commit_twophase_trace failing_connection "x1"
                           false)) (DBAPIError "rejected")).
    reflexivity.
Defined.

End ConnectionFacts.

(** ** The matcher finds exactly the matches of the pattern *)

Module ReFacts.

Import ReSpec StringFacts.

Lemma strip_prefix_spec (lit s s' : string) :
  strip_prefix lit s = Some s' ↔ s = lit +:+ s'.
Proof.
  revert s. induction lit as [|c lit IH]; intros s; simpl.
  - rewrite app_nil_l. split; congruence.
  - rewrite app_cons. destruct s as [|d s]; [done|].
    destruct (Ascii.eqb_spec c d) as [->|Hne].
    + rewrite IH. split; congruence.
    + split; [done|]. congruence.
Qed.

Section Continuation.

Variable k : string → option outcome.

Lemma greedy_star_spec (p : ascii → bool) (s : string) :
  is_Some (greedy_star p k s)
  ↔ ∃ w s', s = w +:+ s' ∧ all_chars p w ∧ is_Some (k s').
Proof.
  induction s as [|c s IH]; simpl.
  - split.
  + intros H. by exists EmptyString, EmptyString.
  + intros (w & s' & Hs & _ & Hk).
    destruct w; [|done]. by rewrite app_nil_l in Hs; subst.
  - destruct (p c) eqn:Hp.
  + destruct (greedy_star p k s) as [res|] eqn:Hg.
    * split; [intros _|by eauto].
      destruct (proj1 IH) as (w & s' & -> & Hw & Hk); [by eauto|].
      by exists (String c w), s'.
    * split.
      { intros H. by exists EmptyString, (String c s). }
      intros (w & s' & Hs & Hw & Hk).
      destruct w as [|d w]; [by rewrite app_nil_l in Hs; subst|].
      rewrite app_cons in Hs. injection Hs as <- ->.
      destruct Hw as [_ Hw].
      assert (is_Some (None : option outcome)) as [? ?]; [|done].
      apply IH. by exists w, s'.
  + split.
    * intros H. by exists EmptyString, (String c s).
    * intros (w & s' & Hs & Hw & Hk).
      destruct w as [|d w]; [by rewrite app_nil_l in Hs; subst|].
      rewrite app_cons in Hs. injection Hs as <- ->.
      destruct Hw as [Hd _]. congruence.
Qed.

Lemma lazy_star_spec (p : ascii → bool) (s : string) :
  is_Some (lazy_star p k s)
  ↔ ∃ w s', s = w +:+ s' ∧ all_chars p w ∧ is_Some (k s').
Proof.
  induction s as [|c s IH]; simpl.
  - destruct (k EmptyString) eqn:Hk.
  + split; [intros _|by eauto]. exists EmptyString, EmptyString.
    by rewrite Hk.
  + split; [by intros [? ?]|].
    intros (w & s' & Hs & _ & Hk').
    destruct w; [|done]. rewrite app_nil_l in Hs; subst.
    by rewrite Hk in Hk'.
  - destruct (k (String c s)) eqn:Hk.
  + split; [intros _|by eauto]. exists EmptyString, (String c s).
    by rewrite Hk.
  + destruct (p c) eqn:Hp.
    * rewrite IH. split.
      { intros (w & s' & -> & Hw & Hk'). by exists (String c w), s'. }
      intros (w & s' & Hs & Hw & Hk').
      destruct w as [|d w].
      { rewrite app_nil_l in Hs; subst. rewrite Hk in Hk'.
        by destruct Hk'. }
      rewrite app_cons in Hs. injection Hs as <- ->.
      destruct Hw as [_ Hw]. by exists w, s'.
    * split; [by intros [? ?]|].
      intros (w & s' & Hs & Hw & Hk').
      destruct w as [|d w].
      { rewrite app_nil_l in Hs; subst. rewrite Hk in Hk'.
        by destruct Hk'. }
      rewrite app_cons in Hs. injection Hs as <- ->.
      destruct Hw as [Hd _]. congruence.
Qed.

End Continuation.

Lemma capture_is_Some n s k s' : is_Some (capture n s k s') ↔ is_Some (k s').
Proof.
  unfold capture. destruct (k s') as [[g rest]|]; [|done].
  split; eauto.
Qed.

(** Soundness and completeness of the backtracking run: it succeeds
    exactly when the text splits into a match of the pattern and a rest on
    which the continuation succeeds. *)
Lemma run_spec (r : regex) :
  ∀ (s : string) (k : string → option outcome),
    is_Some (run r s k)
    ↔ ∃ w s', s = w +:+ s' ∧ matches r w s' ∧ is_Some (k s').
Proof.
  induction r as [lit|p|greedy p|r1 IH1 r2 IH2|r IH|n r IH|]; intros s k;
    simpl.
  - destruct (strip_prefix lit s) as [s1|] eqn:Hp.
    + apply strip_prefix_spec in Hp as ->. split.
      * intros Hk. by exists lit, s1.
      * intros (w & s' & Hs & -> & Hk). by apply String.app_inj in Hs as ->.
    + split; [by intros [? ?]|].
      intros (w & s' & Hs & -> & Hk).
      apply strip_prefix_spec in Hs. congruence.
  - destruct s as [|c s].
    + split; [by intros [? ?]|]. by intros (w & s' & Hs & (c & -> & _) & _).
    + destruct (p c) eqn:Hp.
      * split.
        { intros Hk. exists (String c EmptyString), s. eauto. }
        intros (w & s' & Hs & (d & -> & _) & Hk).
        by injection Hs as <- ->.
      * split; [by intros [? ?]|].
        intros (w & s' & Hs & (d & -> & Hd) & Hk).
        injection Hs as <- ->. congruence.
  - destruct greedy; [apply greedy_star_spec|apply lazy_star_spec].
  - rewrite IH1. split.
    + intros (w1 & s1 & -> & H1 & H2).
      apply IH2 in H2 as (w2 & s2 & -> & H2 & Hk).
      exists (w1 +:+ w2), s2. rewrite app_assoc. eauto 10.
    + intros (w & s' & -> & (w1 & w2 & -> & H1 & H2) & Hk).
      exists w1, (w2 +:+ s'). rewrite app_assoc.
      split_and!; [done..|]. apply IH2. eauto.
  - specialize (IH s k). destruct (run r s k) as [res|].
    + split; [intros _|by eauto].
      destruct (proj1 IH) as (w & s' & -> & Hw & Hk); [by eauto|].
      exists w, s'. eauto.
    + split.
      * intros Hk. exists EmptyString, s. eauto.
      * intros (w & s' & -> & [->|Hw] & Hk); [done|].
        destruct (proj2 IH) as [? ?]; [by eauto|done].
  - rewrite IH. setoid_rewrite capture_is_Some. done.
  - destruct s as [|c [|d s]].
    + split.
      * intros Hk. exists EmptyString, EmptyString. eauto.
      * by intros (w & s' & Hs & [-> _] & Hk); rewrite app_nil_l in Hs; subst.
    + destruct (Ascii.eqb_spec c newline) as [->|Hne].
      * split.
        { intros Hk. exists EmptyString, (String newline EmptyString). eauto. }
        by intros (w & s' & Hs & [-> _] & Hk); rewrite app_nil_l in Hs; subst.
      * split; [by intros [? ?]|].
        intros (w & s' & Hs & [-> [->| ->]] & Hk); rewrite app_nil_l in Hs;
          congruence.
    + split; [by intros [? ?]|].
      intros (w & s' & Hs & [-> [->| ->]] & Hk); rewrite app_nil_l in Hs;
        congruence.
Qed.

Lemma match_at_is_Some pos r s :
  is_Some (match_at pos r s) ↔ ∃ w rest, s = w +:+ rest ∧ matches r w rest.
Proof.
  unfold match_at.
  pose proof (run_spec r s (λ rest, Some (∅, rest))) as H.
  destruct (run r s _) as [[g rest]|].
  - split; [intros _|by eauto].
    destruct (proj1 H) as (w & s' & -> & Hw & _); [by eauto|]. eauto.
  - split; [by intros [? ?]|].
    intros (w & rest & -> & Hw).
    destruct (proj2 H) as [? ?]; [by eauto 10|done].
Qed.

(** [re.search] finds a match exactly when some part of the text matches. *)
Lemma search_from_is_Some r s : ∀ pos,
  is_Some (search_from pos r s)
  ↔ ∃ before w rest, s = before +:+ w +:+ rest ∧ matches r w rest.
Proof.
  induction s as [|c s IH]; intros pos; simpl.
  - pose proof (match_at_is_Some pos r EmptyString) as H.
    destruct (match_at pos r EmptyString) as [m|].
    + split; [intros _|by eauto].
      destruct (proj1 H) as (w & rest & Hs & Hw); [by eauto|].
      by exists EmptyString, w, rest.
    + split; [by intros [? ?]|].
      intros (before & w & rest & Hs & Hw).
      destruct before; [|done]. rewrite app_nil_l in Hs.
      destruct (proj2 H) as [? ?]; [by eauto|done].
  - pose proof (match_at_is_Some pos r (String c s)) as H.
    destruct (match_at pos r (String c s)) as [m|].
    + split; [intros _|by eauto].
      destruct (proj1 H) as (w & rest & Hs & Hw); [by eauto|].
      by exists EmptyString, w, rest.
    + rewrite IH. split.
      * intros (before & w & rest & -> & Hw).
        by exists (String c before), w, rest.
      * intros (before & w & rest & Hs & Hw).
        destruct before as [|d before].
        { rewrite app_nil_l in Hs.
          destruct (proj2 H) as [? ?]; [by eauto|done]. }
        rewrite app_cons in Hs. injection Hs as <- ->. eauto.
Qed.

End ReFacts.

(** ** Identifier normalization *)

Module NormalizeFacts.

Import IdentifierPreparer H2Dialect DefaultPreparer ReSpec StringFacts
  ReFacts Examples.

Section Preparer.

Variable P : inherited.





End Preparer.



(** its pattern of legal characters accepts a plain identifier, *)
Lemma legal_characters_plain (v : string) :
  plain_identifier v → is_Some (re_match legal_characters v).
Proof.
  intros [Hfirst Hall]. destruct v as [|c v]; [done|].
  destruct Hall as [Hc Hv].
  apply match_at_is_Some. exists (String c v), EmptyString.
  split; [by rewrite app_nil_r|].
  exists (String c v), EmptyString. split; [by rewrite app_nil_r|].
  split; [|by split; [|left]].
  exists (String c EmptyString), v. split; [done|]. split; [|done].
  by exists c.
Qed.

(** and it leaves a plain identifier in lower case that is not a reserved
    word without quotes. *)
Lemma requires_quotes_plain (v : string) :
  plain_identifier v → lower v = v → v ∉ reserved_words →
  requires_quotes v = false.
Proof.
  intros Hplain Hlower Hword. unfold requires_quotes.
  rewrite Hlower, bool_decide_eq_false_2 by done.
  pose proof (legal_characters_plain v Hplain) as Hlegal.
  destruct Hplain as [Hfirst _]. destruct v as [|c v]; [done|].
  rewrite Hfirst, String.eqb_refl.
  by rewrite (bool_decide_eq_true_2 _ Hlegal).
Qed.


End NormalizeFacts.

(** ** Reflection of columns *)

Module ColumnFacts.

Import IdentifierPreparer ReSpec StringFacts ReFacts H2Dialect Examples.

Section Preparer.

Variable P : inherited.

(** The pattern of line 367 finds exactly the defaults that refer to a
    system sequence. *)
Lemma search_system_sequence (d : string) :
  is_Some (search system_sequence_pattern d) ↔ system_sequence_default d.
Proof.
  unfold search. rewrite search_from_is_Some.
  unfold system_sequence_default, system_sequence_pattern. simpl. split.
  - intros (before & w & rest & -> & w1 & w2 & -> & -> & w3 & w4 & -> & Hsch
            & w5 & w6 & -> & -> & _).
    exists before, w3, (w6 +:+ rest). split; [|done].
    by rewrite !app_assoc.
  - intros (before & schema & after & -> & Hsch).
    exists before, ("NEXT VALUE FOR " +:+ schema +:+ ".SYSTEM_SEQUENCE_"), after.
    split; [by rewrite !app_assoc|].
    eexists _, _. split; [done|]. split; [done|].
    eexists _, _. split; [done|]. split; [done|].
    exists ".SYSTEM_SEQUENCE_", EmptyString. by rewrite app_nil_r.
Qed.
Lemma for_each_M_inv {A B} (f : A → M B) (xs : list A) :
  (∀ x t0 t1 r, f x t0 = (t1, r) → t0 `prefix_of` t1) →
  ∀ t t' ys,
    for_each_M f xs t = (t', Ok ys) →
    t `prefix_of` t'
    ∧ Forall2 (λ x y, ∃ t0 t1, f x t0 = (t1, Ok y) ∧ t1 `prefix_of` t') xs ys.
Proof.
  intros Hmono. induction xs as [|x xs IH]; intros t t' ys; simpl.
  - intros [= <- <-]. split; [done|constructor].
  - unfold mbind, M_bind.
    destruct (f x t) as [t1 [y|e]] eqn:Hx; [|done].
    destruct (for_each_M f xs t1) as [t2 [ys'|e]] eqn:Hxs; [|done].
    intros [= <- <-].
    apply IH in Hxs as [Hpre Hall]. apply Hmono in Hx as Hpre1.
    split; [by etrans|]. constructor; [|done].
    exists t, t1. split; [done|]. done.
Qed.

Lemma for_each_M_total {A B} (f : A → M B) (xs : list A) :
  Forall (λ x, ∀ t0, ∃ t1 y, f x t0 = (t1, Ok y)) xs →
  ∀ t, ∃ t' ys, for_each_M f xs t = (t', Ok ys).
Proof.
  induction 1 as [|x xs Hx _ IH]; intros t; simpl; [by eauto|].
  unfold mbind, M_bind.
  destruct (Hx t) as (t1 & y & ->). destruct (IH t1) as (t2 & ys & ->).
  by eauto.
Qed.

(** Lower case keeps a name ASCII, and a name that is not, not. *)
Lemma normalized_name_ascii (n : string) :
  is_ascii (default "None" (normalize_name P (Some n))) = is_ascii n.
Proof.
  unfold normalize_name.
  destruct (String.eqb (upper n) n && _); simpl; [|done].
  apply is_ascii_lower.
Qed.

(** One pass through the loop body on a row whose warning cannot be
    written. *)
Lemma column_of_row_raises (row : column_row) (t0 : list event) :
  ischema_names !! TYPE_NAME row = None →
  is_ascii (COLUMN_NAME row) = false →
  column_of_row P row t0 = (t0, Raise UnicodeDecodeError).
Proof.
  intros Htype Hname. unfold column_of_row.
  destruct (default_and_autoincrement row) as [d a].
  rewrite Htype. unfold unrecognized_type_warning, decode_ascii.
  by rewrite normalized_name_ascii, Hname.
Qed.

(** What one pass through the loop body leaves behind. *)
Lemma column_of_row_inv (row : column_row) (t0 t1 : list event)
    (c : column_info) :
  column_of_row P row t0 = (t1, Ok c) →
  col_name c = normalize_name P (Some (COLUMN_NAME row))
  ∧ (col_default c, col_autoincrement c) = default_and_autoincrement row
  ∧ col_nullable c = String.eqb (IS_NULLABLE row) "YES"
  ∧ match ischema_names !! TYPE_NAME row with
    | Some cls => col_type c = Instance cls (type_args row) ∧ t1 = t0
    | None =>
        col_type c = NULLTYPE
        ∧ t1 = t0 ++ [Warn ("Did not recognize type '" +:+ TYPE_NAME row
                              +:+ "' of column '"
                              +:+ default "None" (col_name c) +:+ "'")]
        ∧ is_ascii (COLUMN_NAME row) = true
    end.
Proof.
  unfold column_of_row.
  destruct (default_and_autoincrement row) as [d a].
  destruct (ischema_names !! TYPE_NAME row) as [cls|] eqn:Htype.
  - unfold mbind, M_bind. simpl. by intros [= <- <-].
  - unfold unrecognized_type_warning, decode_ascii.
    rewrite normalized_name_ascii.
    destruct (is_ascii (COLUMN_NAME row)); [|done].
    unfold mbind, M_bind, lift. simpl. by intros [= <- <-].
Qed.

Lemma column_of_row_mono row t0 t1 r :
  column_of_row P row t0 = (t1, r) → t0 `prefix_of` t1.
Proof.
  unfold column_of_row.
  destruct (default_and_autoincrement row) as [d a].
  destruct (ischema_names !! TYPE_NAME row) as [cls|].
  - unfold mbind, M_bind. simpl. by intros [= <- <-].
  - unfold unrecognized_type_warning, decode_ascii.
    destruct (is_ascii _); unfold mbind, M_bind, lift; simpl.
    + intros [= <- <-]. by apply prefix_app_r.
    + by intros [= <- <-].
Qed.

(** The loop body returns on a row of a known type and on a row with an
    ASCII name. *)
Lemma column_of_row_total row t0 :
  (ischema_names !! TYPE_NAME row = None →
   is_ascii (COLUMN_NAME row) = true) →
  ∃ t1 c, column_of_row P row t0 = (t1, Ok c).
Proof.
  intros Hname. unfold column_of_row.
  destruct (default_and_autoincrement row) as [d a].
  destruct (ischema_names !! TYPE_NAME row) as [cls|].
  - unfold mbind, M_bind. simpl. by eauto.
  - unfold unrecognized_type_warning, decode_ascii.
    rewrite normalized_name_ascii, Hname by done.
    unfold mbind, M_bind, lift. simpl. by eauto.
Qed.

(** The i-th descriptor comes from the i-th row. *)
Lemma get_columns_lookup rows t cols i row :
  exec (get_columns P rows) = (t, Ok cols) →
  rows !! i = Some row →
  ∃ c t0 t1, cols !! i = Some c ∧ column_of_row P row t0 = (t1, Ok c)
             ∧ t1 `prefix_of` t.
Proof.
  intros Hrun Hrow.
  apply for_each_M_inv in Hrun as [_ Hall]; [|apply column_of_row_mono].
  destruct (Forall2_lookup_l _ _ _ _ _ Hall Hrow) as (c & Hc & t0 & t1 & H).
  by exists c, t0, t1.
Qed.

(** [get_columns] returns, with one descriptor for each row, when the
    warnings can be written. *)
Lemma get_columns_total (rows : list column_row) :
  Forall (λ row, ischema_names !! TYPE_NAME row = None →
                 is_ascii (COLUMN_NAME row) = true) rows →
  ∃ t cols, exec (get_columns P rows) = (t, Ok cols)
            ∧ length cols = length rows.
Proof.
  intros Hnames.
  destruct (for_each_M_total (column_of_row P) rows) with (t := @nil event)
    as (t & cols & Hrun).
  { eapply Forall_impl; [exact Hnames|].
    intros row Hrow t0. by apply column_of_row_total. }
  exists t, cols. split; [exact Hrun|].
  apply for_each_M_inv in Hrun as [_ Hall]; [|apply column_of_row_mono].
  symmetry. by eapply Forall2_length.
Qed.

(** It raises at the first row whose warning cannot be written, whatever
    follows. *)
Lemma get_columns_raises (row : column_row) (rows : list column_row) :
  ischema_names !! TYPE_NAME row = None →
  is_ascii (COLUMN_NAME row) = false →
  exec (get_columns P (row :: rows)) = ([], Raise UnicodeDecodeError).
Proof.
  intros Htype Hname. unfold exec, get_columns. cbn [for_each_M].
  unfold mbind at 1, M_bind. by rewrite column_of_row_raises.
Qed.

End Preparer.

(** C7 fails on a column of a type that is not in [ischema_names] whose
    name is not ASCII: the text of the warning cannot be put together, the
    [UnicodeDecodeError] leaves [get_columns], no warning is recorded and
    no descriptor is returned, not even for the columns that follow.  On
    all other rows the claim holds: when every column of an unknown type
    has an ASCII name, [get_columns] returns a descriptor for every row, in
    order; a row of an unknown type gets [NULLTYPE] and the warning [Did
    not recognize type '<type>' of column '<name>'] is recorded; the other
    rows get their type applied to its arguments. *)
Theorem unrecognized_type_warns (P : inherited) :
  (∀ rows : list column_row,
      Forall (λ row, ischema_names !! TYPE_NAME row = None →
                     is_ascii (COLUMN_NAME row) = true) rows →
      ∃ t cols,
        exec (get_columns P rows) = (t, Ok cols)
        ∧ length cols = length rows
        ∧ ∀ i row, rows !! i = Some row →
            ∃ c, cols !! i = Some c
              ∧ match ischema_names !! TYPE_NAME row with
                | None =>
                    col_type c = NULLTYPE
                    ∧ Warn ("Did not recognize type '" +:+ TYPE_NAME row
                              +:+ "' of column '"
                              +:+ default "None" (col_name c) +:+ "'") ∈ t
                | Some cls => col_type c = Instance cls (type_args row)
                end)
  ∧ exec (get_columns P accented_columns) = ([], Raise UnicodeDecodeError).
Proof.
  split; [|by apply get_columns_raises].
  intros rows Hnames.
  destruct (get_columns_total P rows Hnames) as (t & cols & Hrun & Hlen).
  exists t, cols. split; [exact Hrun|]. split; [exact Hlen|].
  intros i row Hrow.
  destruct (get_columns_lookup P _ _ _ _ _ Hrun Hrow)
    as (c & t0 & t1 & Hc & Hstep & Hpre).
  exists c. split; [done|].
  apply column_of_row_inv in Hstep as (_ & _ & _ & Htype).
  destruct (ischema_names !! TYPE_NAME row) as [cls|].
  - by destruct Htype.
  - destruct Htype as (-> & -> & _). split; [done|].
    eapply elem_of_prefix; [|exact Hpre].
    apply elem_of_app. right. by left.
Qed.

Lemma unrecognized_type_warns_witness :
  ∃ t cols,
    exec (get_columns Examples.P sample_columns) = (t, Ok cols)
    ∧ length cols = 4
    ∧ ∃ c, cols !! 1 = Some c ∧ col_type c = NULLTYPE
        ∧ Warn "Did not recognize type 'FROBNICATE' of column 'x'" ∈ t.
Proof.
  destruct (proj1 (unrecognized_type_warns Examples.P) sample_columns)
    as (t & cols & Hrun & Hlen & Hrows).
  { repeat constructor. }
  exists t, cols. split; [exact Hrun|]. split; [exact Hlen|].
  destruct (Hrows 1 (ColumnRow "X" "FROBNICATE" None "YES" None None))
    as (c & Hc & Htype & Hwarn); [reflexivity|].
  exists c. split; [exact Hc|]. split; [exact Htype|].
  assert (Hname : col_name c = Some "x").
  { assert (Hcols : cols !! 1
                    = Some (ColumnInfo (Some "x") NULLTYPE true None None)).
    { vm_compute in Hrun. by injection Hrun as _ <-. }
    rewrite Hc in Hcols. by injection Hcols as ->. }
  rewrite Hname in Hwarn. exact Hwarn.
Defined.

(** C2.  A default value in which [NEXT VALUE FOR <schema>.SYSTEM_SEQUENCE_]
    occurs is replaced by [None] and the column is marked autoincrement;
    any other default value that is not [None] is returned as it is, with
    the autoincrement flag the catalog reported. *)
Theorem sequence_default_detected (P : inherited) (rows : list column_row)
    (t : list event) (cols : list column_info) :
  exec (get_columns P rows) = (t, Ok cols) →
  ∀ i row d,
    rows !! i = Some row →
    COLUMN_DEFAULT row = Some d →
    ∃ c, cols !! i = Some c
      ∧ (system_sequence_default d →
         col_default c = None ∧ col_autoincrement c = Some true)
      ∧ (¬ system_sequence_default d →
         col_default c = Some d
         ∧ col_autoincrement c = AUTO_INCREMENT row).
Proof.
  intros Hrun i row d Hrow Hd.
  destruct (get_columns_lookup P _ _ _ _ _ Hrun Hrow)
    as (c & t0 & t1 & Hc & Hstep & _).
  exists c. split; [done|].
  apply column_of_row_inv in Hstep as (_ & Hda & _).
  unfold default_and_autoincrement in Hda. rewrite Hd in Hda.
  pose proof (search_system_sequence d) as Hsearch.
  destruct (search system_sequence_pattern d) as [m|].
  - injection Hda as -> ->. split; [done|].
    intros Hnot. destruct Hnot. apply Hsearch. by eauto.
  - injection Hda as -> ->. split; [|done].
    intros Hseq. apply Hsearch in Hseq. by destruct Hseq.
Qed.

Lemma sequence_default_detected_witness :
  ∃ t cols c d,
    exec (get_columns Examples.P sample_columns) = (t, Ok cols)
    ∧ cols !! 0 = Some c ∧ col_default c = None
    ∧ col_autoincrement c = Some true
    ∧ cols !! 2 = Some d ∧ col_default d = Some "1.0"
    ∧ col_autoincrement d = Some false.
Proof.
  destruct (exec (get_columns Examples.P sample_columns)) as [t [cols|e]] eqn:Hrun;
    [|vm_compute in Hrun; discriminate].
  destruct (sequence_default_detected Examples.P sample_columns t cols Hrun 0 _ _
              eq_refl eq_refl) as (c & Hc & Hseq & _).
  destruct (sequence_default_detected Examples.P sample_columns t cols Hrun 2 _ _
              eq_refl eq_refl) as (d & Hd & _ & Hother).
  exists t, cols, c, d. split; [reflexivity|].
  destruct Hseq as [Hdef Hauto].
  { apply search_system_sequence. vm_compute. eauto. }
  destruct Hother as [Hdef' Hauto'].
  { intros Hseq. apply search_system_sequence in Hseq.
    vm_compute in Hseq. destruct Hseq as [m Hm]. discriminate. }
  repeat split; assumption.
Defined.

(** C6 as it is stated does not hold for [BLOB]: a large-object column
    keeps the length the catalog reports. *)
Lemma blob_length_not_ignored :
  ∃ c, (exec (get_columns Examples.P [blob_column])).2 = Ok [c]
       ∧ col_type c = Instance BLOB [2147483647%Z]
       ∧ col_type c ≠ Instance BLOB [].
Proof. eexists. split; [vm_compute; reflexivity|]. split; [reflexivity|]. discriminate. Qed.

Lemma ischema_DOUBLE : ischema_names !! "DOUBLE" = Some NUMERIC.
Proof. reflexivity. Qed.

Lemma type_args_fixed (row : column_row) :
  TYPE_NAME row ∈ fixed_type_names → type_args row = [].
Proof.
  intros Hfixed. unfold type_args.
  destruct (String.eqb_spec (TYPE_NAME row) "DOUBLE") as [Hd|_].
  - rewrite Hd in Hfixed. unfold fixed_type_names in Hfixed.
    repeat (apply elem_of_cons in Hfixed as [Hfixed|Hfixed]; [discriminate|]).
    by apply elem_of_nil in Hfixed.
  - by rewrite bool_decide_eq_true_2.
Qed.

Example bigint_length_not_ignored :
  (exec (get_columns Examples.P [bigint_column])).2
  = Ok [ColumnInfo (Some "n") (Instance BIGINT [19%Z]) false None
                   (Some true)].
Proof. vm_compute. reflexivity. Qed.

(** C6, as the code has it.  A [DOUBLE] column is [NUMERIC] with the one
    argument 53 whatever length the catalog reports.  The type names
    [INTEGER], [DATE], [TIMESTAMP] and [CLOB] give their type without
    arguments whatever length the catalog reports ([INT] is treated the same
    way, but has no type to apply).  [VARCHAR] and [CHAR] take the reported
    maximum character length as their one argument when it is present and
    not zero, and no argument otherwise. *)
Theorem column_type_arguments (P : inherited) (rows : list column_row)
    (t : list event) (cols : list column_info) :
  exec (get_columns P rows) = (t, Ok cols) →
  ∀ i row,
    rows !! i = Some row →
    ∃ c, cols !! i = Some c
      ∧ (TYPE_NAME row = "DOUBLE" → col_type c = Instance NUMERIC [53%Z])
      ∧ (TYPE_NAME row ∈ fixed_type_names →
         match ischema_names !! TYPE_NAME row with
         | Some cls => col_type c = Instance cls []
         | None => col_type c = NULLTYPE
         end)
      ∧ (TYPE_NAME row = "INTEGER" → col_type c = Instance INTEGER [])
      ∧ (TYPE_NAME row = "DATE" → col_type c = Instance DATE [])
      ∧ (TYPE_NAME row = "TIMESTAMP" → col_type c = Instance TIMESTAMP [])
      ∧ (TYPE_NAME row = "CLOB" → col_type c = Instance CLOB [])
      ∧ (∀ cls, (TYPE_NAME row, cls) ∈ [("VARCHAR", VARCHAR); ("CHAR", CHAR)] →
         col_type c
         = Instance cls
             match CHARACTER_MAXIMUM_LENGTH row with
             | Some n => if decide (n = 0%Z) then [] else [n]
             | None => []
             end).
Proof.
  intros Hrun i row Hrow.
  destruct (get_columns_lookup P _ _ _ _ _ Hrun Hrow)
    as (c & t0 & t1 & Hc & Hstep & _).
  exists c. split; [done|].
  apply column_of_row_inv in Hstep as (_ & _ & _ & Htype).
  assert (Hfixed : TYPE_NAME row ∈ fixed_type_names →
            match ischema_names !! TYPE_NAME row with
            | Some cls => col_type c = Instance cls []
            | None => col_type c = NULLTYPE
            end).
  { intros Hin. destruct (ischema_names !! TYPE_NAME row) as [cls|].
    - destruct Htype as [-> _]. by rewrite type_args_fixed.
    - by destruct Htype. }
  assert (Hnamed : ∀ name cls,
            name ∈ fixed_type_names → ischema_names !! name = Some cls →
            TYPE_NAME row = name → col_type c = Instance cls []).
  { intros name cls Hin Hcls Hname. rewrite <- Hname in Hin, Hcls.
    specialize (Hfixed Hin). by rewrite Hcls in Hfixed. }
  split; [|split; [exact Hfixed|]].
  { intros Hname. rewrite Hname, ischema_DOUBLE in Htype.
    destruct Htype as [-> _]. unfold type_args. by rewrite Hname. }
  split; [apply Hnamed; [apply list_elem_of_In; simpl; tauto|reflexivity]|].
  split; [apply Hnamed; [apply list_elem_of_In; simpl; tauto|reflexivity]|].
  split; [apply Hnamed; [apply list_elem_of_In; simpl; tauto|reflexivity]|].
  split; [apply Hnamed; [apply list_elem_of_In; simpl; tauto|reflexivity]|].
  intros cls Hin. unfold type_args, truthy_int in Htype.
  apply elem_of_cons in Hin as [Hin|Hin];
    [|apply list_elem_of_singleton in Hin];
    injection Hin as Hn ->; rewrite Hn in Htype;
    [change (ischema_names !! "VARCHAR") with (Some VARCHAR) in Htype
    |change (ischema_names !! "CHAR") with (Some CHAR) in Htype];
    cbn [String.eqb Ascii.eqb Bool.eqb bool_decide] in Htype;
    destruct Htype as [-> _];
    (destruct (CHARACTER_MAXIMUM_LENGTH row) as [n|]; [|reflexivity]);
    cbn [default from_option negb];
    (destruct (decide (n = 0%Z)) as [->|Hne]; [reflexivity|]);
    by apply Z.eqb_neq in Hne as ->.
Qed.

Lemma column_type_arguments_witness :
  ∃ t cols c d e,
    exec (get_columns Examples.P sample_columns) = (t, Ok cols)
    ∧ cols !! 0 = Some c ∧ col_type c = Instance INTEGER []
    ∧ cols !! 2 = Some d ∧ col_type d = Instance NUMERIC [53%Z]
    ∧ cols !! 3 = Some e ∧ col_type e = Instance VARCHAR [255%Z].
Proof.
  destruct (exec (get_columns Examples.P sample_columns)) as [t [cols|e]] eqn:Hrun;
    [|vm_compute in Hrun; discriminate].
  destruct (column_type_arguments Examples.P sample_columns t cols Hrun 0 _ eq_refl)
    as (c & Hc & _ & _ & Hinteger & _).
  destruct (column_type_arguments Examples.P sample_columns t cols Hrun 2 _ eq_refl)
    as (d & Hd & Hdouble & _).
  destruct (column_type_arguments Examples.P sample_columns t cols Hrun 3 _ eq_refl)
    as (e & He & _ & _ & _ & _ & _ & _ & Hvarchar).
  exists t, cols, c, d, e. split; [reflexivity|].
  split; [exact Hc|]. split; [apply Hinteger; reflexivity|].
  split; [exact Hd|]. split; [apply Hdouble; reflexivity|].
  split; [exact He|]. apply (Hvarchar VARCHAR). apply list_elem_of_here.
Defined.

End ColumnFacts.

(** ** Reflection of indexes *)

Module IndexFacts.

Import IdentifierPreparer H2Dialect IndexSpec Examples.

Lemma find_index_names (m : pystr) (ds ds' : list index_d) :
  idx_name <$> ds = idx_name <$> ds' →
  fst <$> list_find (λ d, idx_name d = Some m) ds
  = fst <$> list_find (λ d, idx_name d = Some m) ds'.
Proof.
  revert ds'. induction ds as [|d ds IH]; intros [|d' ds']; try done.
  intros [= Hd Hds]. simpl. rewrite <- Hd.
  destruct (decide (idx_name d = Some m)); [done|].
  specialize (IH ds' Hds).
  destruct (list_find _ ds) as [[i x]|], (list_find _ ds') as [[i' x']|];
    simpl in *; congruence.
Qed.

Lemma names_alter (f : index_d → index_d) (i : nat) (ds : list index_d) :
  (∀ d, ds !! i = Some d → idx_name (f d) = idx_name d) →
  idx_name <$> alter f i ds = idx_name <$> ds.
Proof.
  intros Hf. apply list_eq. intros j.
  rewrite !list_lookup_fmap, list_lookup_alter.
  destruct (decide (i = j)) as [->|]; [|done].
  destruct (ds !! j) as [d|] eqn:Hd; [|done]. simpl. f_equal. by apply Hf.
Qed.

Lemma alter_end (f : index_d → index_d) (ds : list index_d) (d : index_d) :
  alter f (length ds) (ds ++ [d]) = ds ++ [f d].
Proof. induction ds as [|x ds IH]; [done|]. simpl. by f_equal. Qed.

Lemma deref_all (ds : list index_d) :
  (λ ref, ds !!! ref) <$> seq 0 (length ds) = ds.
Proof.
  apply list_eq. intros i. rewrite list_lookup_fmap.
  destruct (ds !! i) as [d|] eqn:Hd.
  - rewrite (lookup_seq_lt _ _ _ (lookup_lt_Some _ _ _ Hd)). simpl.
    f_equal. by apply list_lookup_total_correct.
  - rewrite lookup_seq_ge; [done|]. by apply lookup_ge_None.
Qed.

Section Preparer.

Variable P : inherited.

(** One row: the state after the loop body stands for the descriptors with
    the row added. *)
Lemma index_step_refines (st : index_state) (ds : list index_d)
    (row : index_row) :
  represents st ds →
  represents (index_step P true st row) (add_row ds (normalize_row P row)).
Proof.
  intros (Hstore & Hrefs & Hnames).
  unfold index_step, normalize_row. cbn [negb andb].
  set (col := normalize_name P (Some (IDX_COLUMN_NAME row))).
  set (name := normalize_name P (Some (INDEX_NAME row))).
  rewrite Hnames. unfold add_row. cbn [nr_name nr_column nr_non_unique].
  destruct (list_find _ ds) as [[i d]|] eqn:Hfind;
    cbn [fmap option_fmap option_map fst].
  - apply list_find_Some in Hfind as (Hd & Hname & _).
    split; [by rewrite Hstore|]. split.
    + cbn [indexes]. by rewrite length_alter.
    + intros m. cbn [index_names]. rewrite Hnames.
      apply find_index_names. symmetry. apply names_alter.
      intros d' Hd'. assert (d' = d) as -> by congruence.
      by rewrite Hname.
  - unfold represents. cbn [store index_names indexes].
    rewrite Hstore, alter_end.
    split; [reflexivity|]. split.
    + rewrite Hrefs, length_app. simpl.
      rewrite Nat.add_1_r, seq_S. reflexivity.
    + intros m. rewrite lookup_insert.
      destruct (decide (name = m)) as [<-|Hne].
      * symmetry.
        match goal with |- context [list_find ?Q (ds ++ [?d])] =>
          assert (Hnew : list_find Q (ds ++ [d]) = Some (length ds, d))
        end.
        { apply list_find_app_Some. right. split; [done|]. split; [done|].
          rewrite Nat.sub_diag. simpl. by rewrite decide_True. }
        by rewrite Hnew.
      * rewrite Hnames.
        destruct (list_find (λ d, idx_name d = Some m) ds) as [[i d]|]
          eqn:Hm.
        { match goal with |- context [list_find ?Q (ds ++ [?d0])] =>
            assert (Hold : list_find Q (ds ++ [d0]) = Some (i, d))
          end.
          { apply list_find_app_Some. by left. }
          by rewrite Hold. }
        match goal with |- context [list_find ?Q (ds ++ [?d0])] =>
          assert (Hold : list_find Q (ds ++ [d0]) = None)
        end.
        { apply list_find_app_None. split; [done|]. simpl.
          rewrite decide_False; [done|]. simpl. congruence. }
        by rewrite Hold.
Qed.

Lemma index_loop_refines (rows : list index_row) :
  ∀ st ds,
    represents st ds →
    represents (foldl (index_step P true) st rows)
               (foldl add_row ds (normalize_row P <$> rows)).
Proof.
  induction rows as [|row rows IH]; intros st ds Hrep; [done|].
  simpl. apply IH. by apply index_step_refines.
Qed.

Lemma index_step_false (st : index_state) (row : index_row) :
  index_step P false st row
  = if String.eqb (INDEX_TYPE_NAME row) "PRIMARY KEY" then st
    else index_step P true st row.
Proof.
  unfold index_step. cbn [negb andb].
  by destruct (String.eqb (INDEX_TYPE_NAME row) "PRIMARY KEY").
Qed.

(** Rows of the primary key's index are passed over unless asked for. *)
Lemma index_loop_considered (include_auto_indexes : bool)
    (rows : list index_row) :
  ∀ st, foldl (index_step P include_auto_indexes) st rows
        = foldl (index_step P true) st
            (considered include_auto_indexes rows).
Proof.
  destruct include_auto_indexes; [done|].
  unfold considered.
  induction rows as [|row rows IH]; intros st; [done|].
  rewrite filter_cons. cbn [foldl]. rewrite index_step_false.
  destruct (String.eqb_spec (INDEX_TYPE_NAME row) "PRIMARY KEY") as [Hpk|Hpk].
  - rewrite decide_False by (intros H; by apply H). apply IH.
  - rewrite decide_True by done. cbn [foldl]. apply IH.
Qed.

(** [get_indexes] computes the grouping of the rows that take part. *)
Lemma get_indexes_refines (include_auto_indexes : bool)
    (rows : list index_row) :
  get_indexes P include_auto_indexes rows
  = grouped (normalize_row P <$> considered include_auto_indexes rows).
Proof.
  unfold get_indexes. rewrite index_loop_considered.
  destruct (index_loop_refines (considered include_auto_indexes rows)
              (IndexState [] ∅ []) []) as (Hstore & Hrefs & _).
  { split; [done|]. split; [done|]. intros n. cbn [index_names].
    by rewrite lookup_empty. }
  rewrite Hrefs, Hstore. apply deref_all.
Qed.

End Preparer.

Lemma rows_of_snoc (m : pystr) (rows : list named_row) (r : named_row) :
  rows_of m (rows ++ [r])
  = rows_of m rows ++ (if decide (nr_name r = m) then [r] else []).
Proof. unfold rows_of. by rewrite filter_app, filter_singleton. Qed.

Lemma rows_of_none (m : pystr) (rows : list named_row) :
  (∀ r, r ∈ rows → nr_name r ≠ m) → rows_of m rows = [].
Proof.
  intros Hnone. induction rows as [|r rows IH]; [done|].
  unfold rows_of in *. rewrite filter_cons.
  rewrite decide_False by (apply Hnone; left).
  apply IH. intros r' Hr'. apply Hnone. by right.
Qed.

(** The grouping has one descriptor for each index name among the rows, and
    each descriptor describes the rows of its name. *)
Lemma grouped_spec (rows : list named_row) :
  NoDup (idx_name <$> grouped rows)
  ∧ (∀ d, d ∈ grouped rows → describes rows d)
  ∧ (∀ r, r ∈ rows → ∃ d, d ∈ grouped rows ∧ idx_name d = Some (nr_name r)).
Proof.
  induction rows as [|r rows (Hnodup & Hdesc & Hcover)] using rev_ind.
  { split; [constructor|]. split; intros x Hx; by apply elem_of_nil in Hx. }
  unfold grouped in *. rewrite foldl_snoc.
  set (G := foldl add_row [] rows) in *. unfold add_row.
  destruct (list_find (λ d, idx_name d = Some (nr_name r)) G)
    as [[i d0]|] eqn:Hfind.
  - apply list_find_Some in Hfind as (Hd0 & Hname0 & _).
    set (upd := λ d, IndexD (Some (nr_name r))
                            (idx_column_names d ++ [nr_column r])
                            (Some (negb (nr_non_unique r)))).
    assert (Hnames : idx_name <$> alter upd i G = idx_name <$> G).
    { apply names_alter. intros d Hd. cbn. congruence. }
    split; [by rewrite Hnames|]. split.
    + intros d Hd. apply list_elem_of_lookup in Hd as [j Hj].
      rewrite list_lookup_alter in Hj.
      destruct (decide (i = j)) as [<-|Hij].
      * rewrite Hd0 in Hj. injection Hj as <-.
        destruct (Hdesc d0) as (n & r0 & Hn & Hcols & _ & _).
        { apply list_elem_of_lookup. eauto. }
        assert (n = nr_name r) as -> by congruence.
        exists (nr_name r), r. rewrite rows_of_snoc, decide_True by done.
        split; [done|]. split; [|split; [apply last_snoc|done]].
        cbn. by rewrite Hcols, fmap_app.
      * destruct (Hdesc d) as (n & r0 & Hn & Hcols & Hlast & Huniq).
        { apply list_elem_of_lookup. eauto. }
        assert (nr_name r ≠ n) as Hne.
        { intros <-. apply Hij.
          apply (NoDup_lookup _ _ _ (Some (nr_name r)) Hnodup).
          - by rewrite list_lookup_fmap, Hd0, <- Hname0.
          - by rewrite list_lookup_fmap, Hj, <- Hn. }
        exists n, r0. rewrite rows_of_snoc, decide_False, app_nil_r by done.
        done.
    + intros r' Hr'. apply elem_of_app in Hr' as [Hr'|Hr'].
      * destruct (Hcover r' Hr') as (d & Hd & Hn).
        apply list_elem_of_lookup in Hd as [j Hj].
        assert (Hj' : (idx_name <$> alter upd i G) !! j
                      = Some (Some (nr_name r'))).
        { by rewrite Hnames, list_lookup_fmap, Hj, <- Hn. }
        rewrite list_lookup_fmap in Hj'.
        destruct (alter upd i G !! j) as [d'|] eqn:Hd'; [|done].
        exists d'. split; [apply list_elem_of_lookup; eauto|].
        by injection Hj'.
      * apply list_elem_of_singleton in Hr' as ->.
        exists (upd d0). split; [|done].
        apply list_elem_of_lookup. exists i.
        by rewrite list_lookup_alter, decide_True, Hd0.
  - apply list_find_None in Hfind. rewrite Forall_forall in Hfind.
    assert (Hfresh : ∀ r', r' ∈ rows → nr_name r' ≠ nr_name r).
    { intros r' Hr' Heq. destruct (Hcover r' Hr') as (d & Hd & Hn).
      apply (Hfind d Hd). congruence. }
    split; [|split].
    + rewrite fmap_app. apply NoDup_app. split; [done|]. split.
      * intros x Hx Hx'. apply list_elem_of_singleton in Hx'. subst x.
        apply list_elem_of_fmap in Hx as (d & Hn & Hd).
        by apply (Hfind d Hd).
      * apply NoDup_singleton.
    + intros d Hd. apply elem_of_app in Hd as [Hd|Hd].
      * destruct (Hdesc d Hd) as (n & r0 & Hn & Hcols & Hlast & Huniq).
        assert (nr_name r ≠ n) as Hne.
        { intros <-. by apply (Hfind d Hd). }
        exists n, r0. rewrite rows_of_snoc, decide_False, app_nil_r by done.
        done.
      * apply list_elem_of_singleton in Hd as ->.
        exists (nr_name r), r.
        rewrite rows_of_snoc, decide_True, rows_of_none by done.
        done.
    + intros r' Hr'. apply elem_of_app in Hr' as [Hr'|Hr'].
      * destruct (Hcover r' Hr') as (d & Hd & Hn).
        exists d. split; [|done]. apply elem_of_app. by left.
      * apply list_elem_of_singleton in Hr' as ->.
        eexists. split; [apply elem_of_app; right; by left|done].
Qed.

(** C5 as it is stated does not hold for two indexes whose names differ in
    case only: [IDX] and [idx] have the same normalized name, so their
    rows end up in one descriptor, with the columns of both and the flag of
    the last row.  The unique index [IDX] on [A] has no descriptor of its
    own. *)
Lemma indexes_merged_by_case :
  get_indexes Examples.P true case_indexes
  = [IndexD (Some (Some "idx")) [Some "a"; Some "b"] (Some false)]
  ∧ ¬ ∃ d, d ∈ get_indexes Examples.P true case_indexes
           ∧ idx_column_names d = [Some "a"] ∧ idx_unique d = Some true.
Proof.
  assert (Hrun : get_indexes Examples.P true case_indexes
                 = [IndexD (Some (Some "idx")) [Some "a"; Some "b"]
                           (Some false)])
    by (vm_compute; reflexivity).
  split; [exact Hrun|]. rewrite Hrun. intros (d & Hd & Hcols & _).
  apply list_elem_of_singleton in Hd. subst d. discriminate.
Qed.

(** C5, as the code has it.  The rows that take part are all rows when
    auto indexes are asked for, and the rows whose type label is not
    [PRIMARY KEY] otherwise.  The result of [get_indexes] has exactly one
    descriptor for each normalized index name among them; the descriptor of
    a name lists the normalized columns of the rows of that normalized name
    in the order of the rows, and its [unique] is the negation of
    [non_unique] in the last of them. *)
Theorem get_indexes_groups (P : inherited) (include_auto_indexes : bool)
    (rows : list index_row) :
  let rs :=
    normalize_row P
      <$> (if include_auto_indexes then rows
           else filter (λ row, INDEX_TYPE_NAME row ≠ "PRIMARY KEY") rows) in
  let ds := get_indexes P include_auto_indexes rows in
  NoDup (idx_name <$> ds)
  ∧ (∀ r, r ∈ rs → ∃ d, d ∈ ds ∧ idx_name d = Some (nr_name r))
  ∧ (∀ d, d ∈ ds →
       ∃ n r,
         idx_name d = Some n
         ∧ idx_column_names d = nr_column <$> filter (λ r, nr_name r = n) rs
         ∧ last (filter (λ r, nr_name r = n) rs) = Some r
         ∧ idx_unique d = Some (negb (nr_non_unique r))).
Proof.
  intros rs ds. subst ds. rewrite get_indexes_refines.
  fold (considered include_auto_indexes rows) in rs. fold rs.
  destruct (grouped_spec rs) as (Hnodup & Hdesc & Hcover). done.
Qed.

Lemma get_indexes_groups_witness :
  NoDup (idx_name <$> get_indexes Examples.P false sample_indexes)
  ∧ ∀ d, d ∈ get_indexes Examples.P false sample_indexes →
         describes sample_named_rows d.
Proof.
  destruct (get_indexes_groups Examples.P false sample_indexes)
    as (Hnodup & _ & Hdesc).
  split; [exact Hnodup|exact Hdesc].
Defined.

(** The three rows of one index give one descriptor with the three columns
    in the order of the rows; the row of the primary key is left out, or
    gives a second descriptor when auto indexes are asked for. *)
Example get_indexes_sample :
  get_indexes Examples.P false sample_indexes
  = [IndexD (Some (Some "idx_abc")) [Some "c1"; Some "c2"; Some "c3"]
            (Some false)]
  ∧ get_indexes Examples.P true sample_indexes
    = [IndexD (Some (Some "idx_abc")) [Some "c1"; Some "c2"; Some "c3"]
              (Some false);
       IndexD (Some (Some "primary_key_1")) [Some "id"] (Some true)].
Proof. split; vm_compute; reflexivity. Qed.

End IndexFacts.

(** ** Reflection of foreign keys *)

Module ForeignKeyFacts.

Import IdentifierPreparer H2Dialect Examples.

Lemma for_each_inv {A B} (f : A → result B) (xs : list A) (ys : list B) :
  for_each f xs = Ok ys → Forall2 (λ x y, f x = Ok y) xs ys.
Proof.
  revert ys. induction xs as [|x xs IH]; intros ys; simpl.
  - intros [= <-]. constructor.
  - destruct (f x) as [y|e] eqn:Hx; [|done]. cbn [mbind result_bind].
    destruct (for_each f xs) as [ys'|e]; [|done]. cbn [mbind result_bind].
    intros [= <-]. constructor; [done|]. by apply IH.
Qed.

Section Preparer.

Variable P : inherited.

(** The name of a foreign key is the cell of the catalog, untouched. *)
Lemma fkey_of_row_name (schema default_schema_name : pystr)
    (row : pystr * string) (fk : fkey_d) :
  fkey_of_row P schema default_schema_name row = Ok fk →
  fk_name fk = row.1.
Proof.
  destruct row as [conname condef]. unfold fkey_of_row.
  destruct (search foreign_key_pattern condef) as [mo|]; [|done].
  cbn [mbind result_bind].
  destruct (groups 4 mo) as [|[c|] [|s [|[t|] [|[r|] [|]]]]]; try done.
  by intros [= <-].
Qed.

Lemma get_foreign_keys_names (schema : pystr) (rows : list (pystr * string))
    (fks : list fkey_d) :
  get_foreign_keys P schema rows = Ok fks → fk_name <$> fks = fst <$> rows.
Proof.
  unfold get_foreign_keys. intros Hfks. apply for_each_inv in Hfks.
  induction Hfks as [|row fk rows fks Hrow _ IH]; [done|].
  simpl. f_equal; [|exact IH]. by apply fkey_of_row_name in Hrow.
Qed.

(** The two sample definitions on any preparer. *)
Lemma get_foreign_keys_unspaced :
  get_foreign_keys P None [unspaced_foreign_key]
  = Ok [FKey (Some "FK_CHILD_PARENT")
             [_prepare_name P "a"; _prepare_name P "b"]
             None (_prepare_name P "parent") [_prepare_name P "x,y"]].
Proof. vm_compute. reflexivity. Qed.

Lemma get_foreign_keys_default_schema :
  get_foreign_keys P None [default_schema_foreign_key]
  = Ok [FKey (Some "FK_CHILD_PARENT")
             [_prepare_name P "a"; _prepare_name P "b"]
             (if bool_decide (_prepare_name P "PUBLIC" = Some "public")
              then None else _prepare_name P "PUBLIC")
             (_prepare_name P "parent")
             [_prepare_name P "x"; _prepare_name P "y"]].
Proof. vm_compute. reflexivity. Qed.

End Preparer.

(** The two separators differ: the one for the referred columns wants a
    white-space character after the comma. *)
Lemma separators_differ :
  split constrained_separator "x,y" = ["x"; "y"]
  ∧ split referred_separator "x,y" = ["x,y"]
  ∧ split constrained_separator "x, y" = ["x"; "y"]
  ∧ split referred_separator "x, y" = ["x"; "y"].
Proof. repeat split; vm_compute; reflexivity. Qed.

(** The example of C1 and its variant on the default schema. *)
Example foreign_key_example :
  get_foreign_keys Examples.P None [spaced_foreign_key]
  = Ok [FKey (Some "FK_CHILD_PARENT") [Some "a"; Some "b"]
             (Some "other_schema") (Some "parent") [Some "x"; Some "y"]]
  ∧ get_foreign_keys Examples.P None [default_schema_foreign_key]
    = Ok [FKey (Some "FK_CHILD_PARENT") [Some "a"; Some "b"]
               None (Some "parent") [Some "x"; Some "y"]].
Proof. split; vm_compute; reflexivity. Qed.

(** C1 at a definition without a space after the commas: whatever the
    preparer, the constrained columns are split and the referred columns
    are not; with the preparer of the examples the one referred column is
    [x,y]. *)
Theorem referred_columns_not_split :
  (∀ P : inherited,
      get_foreign_keys P None [unspaced_foreign_key]
      = Ok [FKey (Some "FK_CHILD_PARENT")
                 [_prepare_name P "a"; _prepare_name P "b"]
                 None (_prepare_name P "parent") [_prepare_name P "x,y"]])
  ∧ get_foreign_keys Examples.P None [unspaced_foreign_key]
    = Ok [FKey (Some "FK_CHILD_PARENT") [Some "a"; Some "b"]
               None (Some "parent") [Some "x,y"]].
Proof.
  split; [exact get_foreign_keys_unspaced|]. vm_compute. reflexivity.
Qed.

(** C8 at a foreign key whose name the catalog gives in upper case:
    whatever the preparer, the name comes back as it is, while
    normalization would lower it, as [get_pk_constraint] does with the name
    of the primary key. *)
Theorem foreign_key_name_not_normalized :
  (∀ P : inherited,
      ∃ fk, get_foreign_keys P None [default_schema_foreign_key] = Ok [fk]
            ∧ fk_name fk = Some "FK_CHILD_PARENT")
  ∧ normalize_name Examples.P (Some "FK_CHILD_PARENT")
    = Some "fk_child_parent"
  ∧ get_pk_constraint Examples.P [[Some "ID"]] (Some "CONSTRAINT_1")
    = Ok (PkConstraint [Some "id"] (Some "constraint_1")).
Proof.
  split; [|split; vm_compute; reflexivity].
  intros P. rewrite get_foreign_keys_default_schema. by eexists.
Qed.

End ForeignKeyFacts.

(** ** The text a match leaves, and the fuel of [split] *)

Module SplitFacts.

Import ReSpec StringFacts ReFacts.

Section Continuation.

Variable k : string → option outcome.

Lemma greedy_star_sound (p : ascii → bool) (s : string) (res : outcome) :
  greedy_star p k s = Some res →
  ∃ w s', s = w +:+ s' ∧ all_chars p w ∧ k s' = Some res.
Proof.
  induction s as [|c s IH]; simpl.
  - intros Hk. by exists EmptyString, EmptyString.
  - destruct (p c) eqn:Hp.
    + destruct (greedy_star p k s) as [res'|] eqn:Hg.
      * intros [= <-]. destruct IH as (w & s' & -> & Hw & Hk); [done|].
        by exists (String c w), s'.
      * intros Hk. by exists EmptyString, (String c s).
    + intros Hk. by exists EmptyString, (String c s).
Qed.

Lemma lazy_star_sound (p : ascii → bool) (s : string) (res : outcome) :
  lazy_star p k s = Some res →
  ∃ w s', s = w +:+ s' ∧ all_chars p w ∧ k s' = Some res.
Proof.
  induction s as [|c s IH]; simpl.
  - destruct (k EmptyString) eqn:Hk; [|done].
    intros [= <-]. by exists EmptyString, EmptyString.
  - destruct (k (String c s)) eqn:Hk.
    + intros [= <-]. by exists EmptyString, (String c s).
    + destruct (p c) eqn:Hp; [|done].
      intros Hl. destruct (IH Hl) as (w & s' & -> & Hw & Hk').
      by exists (String c w), s'.
Qed.

End Continuation.

(** A successful run ends in a successful call of the continuation on the
    text the match leaves; groups are added to what that call returns. *)
Lemma run_sound (r : regex) :
  ∀ (s : string) (k : string → option outcome) (res : outcome),
    run r s k = Some res →
    ∃ w s' res', s = w +:+ s' ∧ matches r w s' ∧ k s' = Some res'
                 ∧ res.2 = res'.2.
Proof.
  induction r as [lit|p|greedy p|r1 IH1 r2 IH2|r IH|n r IH|];
    intros s k res; simpl.
  - destruct (strip_prefix lit s) as [s1|] eqn:Hp; [|done].
    apply strip_prefix_spec in Hp as ->. intros Hk. by exists lit, s1, res.
  - destruct s as [|c s]; [done|]. destruct (p c) eqn:Hp; [|done].
    intros Hk. exists (String c EmptyString), s, res. eauto 10.
  - destruct greedy; intros Hstar;
      [apply greedy_star_sound in Hstar|apply lazy_star_sound in Hstar];
      destruct Hstar as (w & s' & -> & Hw & Hk); by exists w, s', res.
  - intros H1. apply IH1 in H1 as (w1 & s1 & res1 & -> & Hw1 & H2 & Hres1).
    apply IH2 in H2 as (w2 & s2 & res2 & -> & Hw2 & Hk & Hres2).
    exists (w1 +:+ w2), s2, res2. rewrite app_assoc.
    split_and!; [done| |done|congruence]. by exists w1, w2.
  - destruct (run r s k) as [res0|] eqn:Hr.
    + intros [= <-]. apply IH in Hr as (w & s' & res' & -> & Hw & Hk & Hres).
      exists w, s', res'. eauto 10.
    + intros Hk. exists EmptyString, s, res. simpl. eauto 10.
  - intros Hr. apply IH in Hr as (w & s' & res' & -> & Hw & Hcap & Hres).
    unfold capture in Hcap. destruct (k s') as [[g rest]|] eqn:Hk; [|done].
    injection Hcap as <-. exists w, s', (g, rest). by rewrite Hres.
  - destruct s as [|c [|d s]].
    + intros Hk. exists EmptyString, EmptyString, res. simpl. eauto 10.
    + destruct (Ascii.eqb_spec c newline) as [->|]; [|done].
      intros Hk. exists EmptyString, (String newline EmptyString), res.
      simpl. eauto 10.
    + done.
Qed.

Lemma take_app (w rest : string) : take (String.length w) (w +:+ rest) = w.
Proof. induction w as [|c w IH]; [by destruct rest|]. simpl. by rewrite IH. Qed.

Lemma consumed_app (w rest : string) : consumed (w +:+ rest) rest = w.
Proof.
  unfold consumed. rewrite length_app.
  replace (String.length w + String.length rest - String.length rest)
    with (String.length w) by lia.
  apply take_app.
Qed.

(** A match object splits the text it was found in. *)
Lemma match_at_sound (pos : nat) (r : regex) (s : string) (m : match_obj) :
  match_at pos r s = Some m →
  m_start m = pos ∧ s = m_text m +:+ m_rest m
  ∧ matches r (m_text m) (m_rest m).
Proof.
  unfold match_at.
  destruct (run r s _) as [[g rest]|] eqn:Hrun; [|done].
  intros [= <-]. simpl.
  apply run_sound in Hrun as (w & s' & res' & -> & Hw & [= <-] & Hrest).
  simpl in Hrest. subst s'. by rewrite consumed_app.
Qed.

Lemma search_from_sound (r : regex) (s : string) :
  ∀ pos m,
    search_from pos r s = Some m →
    ∃ before, s = before +:+ m_text m +:+ m_rest m
              ∧ m_start m = pos + String.length before
              ∧ matches r (m_text m) (m_rest m).
Proof.
  induction s as [|c s IH]; intros pos m; simpl.
  - destruct (match_at pos r EmptyString) as [m'|] eqn:Hm; [|done].
    intros [= <-]. apply match_at_sound in Hm as (Hpos & Hs & Hmatch).
    exists EmptyString. simpl. by rewrite Nat.add_0_r.
  - destruct (match_at pos r (String c s)) as [m'|] eqn:Hm.
    + intros [= <-]. apply match_at_sound in Hm as (Hpos & Hs & Hmatch).
      exists EmptyString. simpl. by rewrite Nat.add_0_r.
    + intros Hsearch.
      apply IH in Hsearch as (before & -> & Hstart & Hmatch).
      exists (String c before). simpl. split; [done|]. split; [lia|done].
Qed.

Lemma length_drop (n : nat) (s : string) :
  String.length (drop n s) = String.length s - n.
Proof.
  revert s. induction n as [|n IH]; intros [|c s]; simpl; done.
Qed.

(** [split] has fuel for every turn of its loop: more fuel than the text
    has characters changes nothing. *)
Lemma split_loop_fuel (r : regex) :
  ∀ fuel1 fuel2 pending s,
    String.length s < fuel1 → String.length s < fuel2 →
    split_loop fuel1 r pending s = split_loop fuel2 r pending s.
Proof.
  induction fuel1 as [|fuel1 IH]; intros [|fuel2] pending s H1 H2;
    try lia.
  cbn [split_loop]. destruct (search r s) as [m|] eqn:Hsearch; [|done].
  apply search_from_sound in Hsearch as (before & Hs & Hstart & _).
  assert (Hlen : String.length s
                 = String.length before + String.length (m_text m)
                   + String.length (m_rest m)).
  { rewrite Hs at 1. rewrite !length_app. lia. }
  destruct (m_text m) as [|c text] eqn:Htext.
  - destruct (pending +:+ s); [done|].
    destruct (m_start m <? String.length s) eqn:Hlt; [|done].
    apply Nat.ltb_lt in Hlt.
    apply IH; rewrite length_drop; lia.
  - f_equal. simpl in Hlen. apply IH; lia.
Qed.

Lemma split_fuel (r : regex) (s : string) (fuel : nat) :
  String.length s < fuel → split r s = split_loop fuel r EmptyString s.
Proof. intros Hfuel. apply split_loop_fuel; [lia|done]. Qed.

End SplitFacts.


(** ** The groups of a match *)

Module GroupFacts.

Import ReSpec IdentifierPreparer H2Dialect SplitFacts.

(** Every group that lies on all paths through the pattern has a value in
    the outcome of a successful run, next to the groups the continuation
    provides. *)
Lemma run_captures (r : regex) :
  ∀ (s : string) (k : string → option outcome) (res : outcome)
    (D : nat → Prop),
    run r s k = Some res →
    (∀ s' res', k s' = Some res' → ∀ n, D n → is_Some (res'.1 !! n)) →
    ∀ n, D n ∨ n ∈ sure_groups r → is_Some (res.1 !! n).
Proof.
  induction r as [lit|p|greedy p|r1 IH1 r2 IH2|r IH|m r IH|];
    intros s k res D Hrun Hk n Hn; simpl in *.
  - destruct (strip_prefix lit s) as [s1|]; [|done].
    destruct Hn as [Hn|Hn]; [by eapply Hk|by apply elem_of_nil in Hn].
  - destruct s as [|c s]; [done|]. destruct (p c); [|done].
    destruct Hn as [Hn|Hn]; [by eapply Hk|by apply elem_of_nil in Hn].
  - destruct Hn as [Hn|Hn]; [|by apply elem_of_nil in Hn].
    destruct greedy;
      [apply greedy_star_sound in Hrun|apply lazy_star_sound in Hrun];
      destruct Hrun as (w & s' & _ & _ & Hres); by eapply Hk.
  - apply (IH1 s _ res (λ n, D n ∨ n ∈ sure_groups r2) Hrun).
    + intros s' res' Hrun2 n' Hn'. by apply (IH2 s' k res' D Hrun2 Hk).
    + rewrite elem_of_app in Hn. tauto.
  - destruct Hn as [Hn|Hn]; [|by apply elem_of_nil in Hn].
    destruct (run r s k) as [res0|] eqn:Hr.
    + injection Hrun as <-. apply (IH s k res0 D Hr Hk). by left.
    + by eapply Hk.
  - apply (IH s _ res (λ n, D n ∨ n = m) Hrun).
    + intros s' res' Hcap n' Hn'. unfold capture in Hcap.
      destruct (k s') as [[g rest]|] eqn:Hks; [|done].
      injection Hcap as <-. simpl. rewrite lookup_insert_is_Some'.
      destruct Hn' as [Hn'|Hn']; [|by left].
      right. by apply (Hk s' (g, rest) Hks).
    + rewrite elem_of_cons in Hn. tauto.
  - destruct Hn as [Hn|Hn]; [|by apply elem_of_nil in Hn].
    destruct s as [|c [|d s]]; [by eapply Hk| |done].
    destruct (Ascii.eqb c newline); [by eapply Hk|done].
Qed.

Lemma search_from_captures (r : regex) (s : string) :
  ∀ pos mo n,
    search_from pos r s = Some mo → n ∈ sure_groups r →
    is_Some (m_groups mo !! n).
Proof.
  assert (Hat : ∀ pos s mo n,
             match_at pos r s = Some mo → n ∈ sure_groups r →
             is_Some (m_groups mo !! n)).
  { intros pos s0 mo n. unfold match_at.
    destruct (run r s0 _) as [[g rest]|] eqn:Hrun; [|done].
    intros [= <-] Hn. simpl.
    apply (run_captures r s0 _ (g, rest) (λ _, False) Hrun); [done|].
    by right. }
  induction s as [|c s IH]; intros pos mo n; simpl.
  - destruct (match_at pos r EmptyString) eqn:Hm; [|done].
    intros [= <-]. by eapply Hat.
  - destruct (match_at pos r (String c s)) eqn:Hm.
    + intros [= <-]. by eapply Hat.
    + apply IH.
Qed.

(** The groups 1, 3 and 4 of the foreign-key pattern have a value in every
    match. *)
Lemma foreign_key_groups (condef : string) (mo : match_obj) :
  search foreign_key_pattern condef = Some mo →
  ∃ c s t r, groups 4 mo = [Some c; s; Some t; Some r].
Proof.
  intros Hsearch.
  assert (Hsure : ∀ n, n ∈ [1; 3; 4] → is_Some (m_groups mo !! n)).
  { intros n Hn. apply (search_from_captures _ _ _ _ _ Hsearch).
    revert Hn. cbn. rewrite !elem_of_cons. tauto. }
  destruct (Hsure 1) as [c Hc]; [by left|].
  destruct (Hsure 3) as [t Ht]; [right; by left|].
  destruct (Hsure 4) as [r Hr]; [right; right; by left|].
  exists c, (m_groups mo !! 2), t, r.
  unfold groups. cbn. by rewrite Hc, Ht, Hr.
Qed.

(** A row makes [get_foreign_keys] raise only when its definition has no
    part of the shape the pattern describes. *)
Lemma fkey_of_row_raises (P : inherited) (schema default_schema_name : pystr)
    (row : pystr * string) (e : exn) :
  fkey_of_row P schema default_schema_name row = Raise e →
  search foreign_key_pattern row.2 = None ∧ e = AttributeError.
Proof.
  destruct row as [conname condef]. unfold fkey_of_row. simpl.
  destruct (search foreign_key_pattern condef) as [mo|] eqn:Hsearch.
  - destruct (foreign_key_groups condef mo Hsearch) as (c & s & t & r & ->).
    done.
  - cbn [mbind result_bind]. by intros [= <-].
Qed.

End GroupFacts.

(** ** Names in both directions *)

Module NameFacts.

Import IdentifierPreparer H2Dialect StringFacts TextSpec Examples.

Lemma upper_char_idemp (c : ascii) : upper_char (upper_char c) = upper_char c.
Proof. by destruct c as [[] [] [] [] [] [] [] []]. Qed.

Lemma lower_upper_char (c : ascii) : lower_char (upper_char c) = lower_char c.
Proof. by destruct c as [[] [] [] [] [] [] [] []]. Qed.

Lemma upper_idemp (s : string) : upper (upper s) = upper s.
Proof.
  induction s as [|c s IH]; [reflexivity|].
  unfold upper in *. simpl. by rewrite upper_char_idemp, IH.
Qed.

Lemma lower_upper (s : string) : lower (upper s) = lower s.
Proof.
  induction s as [|c s IH]; [reflexivity|].
  unfold upper, lower in *. simpl. by rewrite lower_upper_char, IH.
Qed.

(** What [normalize_name] returns is normalized. *)
Lemma normalize_name_fixed (P : inherited) (name : pystr) :
  normalized P (normalize_name P name).
Proof.
  unfold normalized.
  destruct name as [X|]; [|reflexivity]. unfold normalize_name.
  destruct (String.eqb (upper X) X
            && negb (_requires_quotes P (lower X))) eqn:Hcase.
  - rewrite lower_idemp.
    by destruct (String.eqb (upper (lower X)) (lower X)
                 && negb (_requires_quotes P (lower X))).
  - by rewrite Hcase.
Qed.

(** X1.  Normalizing a name that is already normalized changes nothing,
    whatever the preparer quotes. *)
Theorem normalize_name_idempotent (P : inherited) (name : pystr) :
  normalize_name P (normalize_name P name) = normalize_name P name.
Proof. apply normalize_name_fixed. Qed.

(** X2.  Denormalizing twice is denormalizing once. *)
Theorem denormalize_name_idempotent (P : inherited) (name : pystr) :
  denormalize_name P (denormalize_name P name) = denormalize_name P name.
Proof.
  destruct name as [x|]; [|reflexivity]. unfold denormalize_name.
  destruct (String.eqb (lower x) x
            && negb (_requires_quotes P (lower x))) eqn:Hcase.
  - rewrite upper_idemp.
    by destruct (String.eqb (lower (upper x)) (upper x)
                 && negb (_requires_quotes P (lower (upper x)))).
  - by rewrite Hcase.
Qed.


(** X4.  A lower-case name that requires no quotes comes back from the
    database form: denormalizing it gives its upper-case form, and
    normalizing that gives the name. *)
Theorem denormalize_then_normalize (P : inherited) (x : string) :
  lower x = x → _requires_quotes P x = false →
  denormalize_name P (Some x) = Some (upper x)
  ∧ normalize_name P (denormalize_name P (Some x)) = Some x.
Proof.
  intros Hlow Hq.
  assert (Hden : denormalize_name P (Some x) = Some (upper x)).
  { unfold denormalize_name. by rewrite Hlow, String.eqb_refl, Hq. }
  split; [exact Hden|]. rewrite Hden. unfold normalize_name.
  by rewrite upper_idemp, String.eqb_refl, lower_upper, Hlow, Hq.
Qed.

Lemma denormalize_then_normalize_witness :
  denormalize_name Examples.P (Some "users") = Some "USERS"
  ∧ normalize_name Examples.P (denormalize_name Examples.P (Some "users"))
    = Some "users".
Proof.
  apply (denormalize_then_normalize Examples.P "users"); reflexivity.
Defined.

Lemma denormalize_name_upper (P : inherited) (x : string) :
  lower x = x → _requires_quotes P x = false →
  denormalize_name P (Some (upper x)) = denormalize_name P (Some x).
Proof.
  intros Hlow Hq. unfold denormalize_name.
  rewrite lower_upper, Hlow, Hq, !String.eqb_refl. simpl.
  rewrite upper_idemp. by destruct (String.eqb x (upper x)).
Qed.

(** X5.  A lower-case name that requires no quotes and its upper-case form
    are the same name to the dialect: both denormalize to the upper-case
    form and both normalize to the lower-case one. *)
Theorem names_ignore_case (P : inherited) (x : string) :
  lower x = x → _requires_quotes P x = false →
  denormalize_name P (Some (upper x)) = denormalize_name P (Some x)
  ∧ normalize_name P (Some (upper x)) = normalize_name P (Some x).
Proof.
  intros Hlow Hq. split; [by apply denormalize_name_upper|].
  unfold normalize_name.
  rewrite upper_idemp, lower_upper, Hlow, Hq, !String.eqb_refl. simpl.
  by destruct (String.eqb (upper x) x).
Qed.

Lemma names_ignore_case_witness :
  denormalize_name Examples.P (Some "USERS")
  = denormalize_name Examples.P (Some "users")
  ∧ normalize_name Examples.P (Some "USERS")
    = normalize_name Examples.P (Some "users").
Proof.
  apply (names_ignore_case Examples.P "users"); reflexivity.
Defined.

End NameFacts.

(** ** Quotes around a name *)

Module UnquoteFacts.

Import IdentifierPreparer StringFacts TextSpec.

Lemma lstrip_quotes (n : nat) (s : string) :
  (∀ s', s ≠ String "034"%char s') →
  lstrip "034"%char (quotes n +:+ s) = s.
Proof.
  intros Hs. induction n as [|n IH]; [|exact IH].
  destruct s as [|c s]; [reflexivity|]. simpl.
  destruct (Ascii.eqb_spec c "034"%char) as [->|]; [|reflexivity].
  by destruct (Hs s).
Qed.

Lemma rstrip_quotes (n : nat) : rstrip "034"%char (quotes n) = EmptyString.
Proof. induction n as [|n IH]; [reflexivity|]. simpl. by rewrite IH. Qed.

Lemma rstrip_app_quotes (n : nat) (s : string) :
  rstrip "034"%char (s +:+ quotes n) = rstrip "034"%char s.
Proof.
  induction s as [|c s IH]; [apply rstrip_quotes|].
  rewrite app_cons. simpl. by rewrite IH.
Qed.

Lemma rstrip_unquoted (s : string) :
  (∀ s', s ≠ s' +:+ String "034"%char EmptyString) →
  rstrip "034"%char s = s.
Proof.
  induction s as [|c s IH]; intros Hs; [reflexivity|].
  simpl. rewrite IH.
  - destruct s as [|d s]; [|reflexivity].
    destruct (Ascii.eqb_spec c "034"%char) as [->|]; [|reflexivity].
    by destruct (Hs EmptyString).
  - intros s' ->. by destruct (Hs (String c s')).
Qed.

(** X6.  [_unquote_identifier] takes away the double quotes around a name,
    however many there are on either side, and nothing else: what is left
    is the text between them, with the quotes inside it. *)
Theorem unquote_identifier_strips (m n : nat) (s : string) :
  unquoted s →
  _unquote_identifier (quotes m +:+ s +:+ quotes n) = s.
Proof.
  intros [Hfirst Hlast]. unfold _unquote_identifier, strip.
  destruct s as [|c s].
  - rewrite app_nil_l.
    replace (quotes m +:+ quotes n) with (quotes (m + n) +:+ EmptyString).
    + rewrite lstrip_quotes; [reflexivity|done].
    + rewrite app_nil_r. induction m as [|m IH]; [reflexivity|].
      simpl. by rewrite IH.
  - rewrite lstrip_quotes.
    + rewrite rstrip_app_quotes. by apply rstrip_unquoted.
    + intros s' [= -> _]. by destruct (Hfirst s).
Qed.

Lemma unquote_identifier_strips_witness :
  _unquote_identifier
    (quotes 1 +:+ String "a" (String "034" "b") +:+ quotes 2)
  = String "a" (String "034" "b").
Proof.
  apply (unquote_identifier_strips 1 2). split.
  - discriminate.
  - intros s' Hs'.
    do 3 (destruct s' as [|? s']; [discriminate|injection Hs' as _ Hs']).
    by destruct s'.
Defined.

End UnquoteFacts.

(** ** Reflection: warnings, primary keys and the order of indexes *)

Module ReflectionFacts.

Import IdentifierPreparer H2Dialect IndexSpec TextSpec ReflectionSpec
  NameFacts ColumnFacts IndexFacts Examples.

Section Preparer.

Variable P : inherited.

Lemma column_of_row_trace (row : column_row) (t : list event) :
  undecodable row = false →
  ∃ c, column_of_row P row t = (t ++ warnings_of P row, Ok c).
Proof.
  unfold undecodable, warnings_of. intros Hrow.
  destruct (column_of_row_total P row t) as (t1 & c & Hc).
  { intros Htype. rewrite bool_decide_eq_true_2 in Hrow by done.
    by destruct (is_ascii (COLUMN_NAME row)). }
  exists c. rewrite Hc.
  apply column_of_row_inv in Hc as (Hname & _ & _ & Htype).
  destruct (ischema_names !! TYPE_NAME row) as [cls|].
  - destruct Htype as [_ ->]. by rewrite app_nil_r.
  - destruct Htype as (_ & -> & _). by rewrite Hname.
Qed.

Lemma column_of_row_undecodable (row : column_row) (t : list event) :
  undecodable row = true →
  column_of_row P row t = (t, Raise UnicodeDecodeError).
Proof.
  unfold undecodable. intros [Htype Hname]%andb_prop.
  apply bool_decide_eq_true_1 in Htype. apply negb_true_iff in Hname.
  by apply column_of_row_raises.
Qed.

Lemma get_columns_cons (row : column_row) (rows : list column_row)
    (t : list event) :
  get_columns P (row :: rows) t
  = match column_of_row P row t with
    | (t1, Ok c) =>
        match get_columns P rows t1 with
        | (t2, Ok cols) => (t2, Ok (c :: cols))
        | (t2, Raise e) => (t2, Raise e)
        end
    | (t1, Raise e) => (t1, Raise e)
    end.
Proof.
  unfold get_columns. cbn [for_each_M]. unfold mbind at 1, M_bind.
  destruct (column_of_row P row t) as [t1 [c|e]]; [|done].
  unfold mbind, M_bind.
  by destruct (for_each_M (column_of_row P) rows t1) as [t2 [cols|e]].
Qed.

Lemma get_columns_trace (rows : list column_row) :
  ∀ t,
    (get_columns P rows t).1 = t ++ (before_failure rows ≫= warnings_of P)
    ∧ match (get_columns P rows t).2 with
      | Ok cols => before_failure rows = rows
      | Raise e =>
          e = UnicodeDecodeError
          ∧ Exists (λ row, undecodable row = true) rows
      end.
Proof.
  induction rows as [|row rows IH]; intros t.
  - split; [|done]. simpl. by rewrite app_nil_r.
  - rewrite get_columns_cons. cbn [before_failure].
    destruct (undecodable row) eqn:Hrow.
    + rewrite (column_of_row_undecodable row t Hrow). simpl.
      rewrite app_nil_r. split; [done|]. split; [done|].
      by apply Exists_cons_hd.
    + destruct (column_of_row_trace row t Hrow) as [c ->].
      destruct (IH (t ++ warnings_of P row)) as [Htrace Hout].
      destruct (get_columns P rows (t ++ warnings_of P row))
        as [t' [cols|e]]; simpl in *.
      * split; [by rewrite Htrace, app_assoc|]. by rewrite Hout.
      * split; [by rewrite Htrace, app_assoc|].
        destruct Hout as [-> Hex]. split; [done|]. by apply Exists_cons_tl.
Qed.

Lemma normalized_first_cells_total (rows : list (list pystr)) :
  Forall (λ row, row ≠ []) rows →
  normalized_first_cells P rows
  = Ok ((λ row, normalize_name P (hd None row)) <$> rows).
Proof.
  unfold normalized_first_cells.
  induction 1 as [|row rows Hrow _ IH]; [reflexivity|].
  cbn [for_each]. destruct row as [|cell row]; [done|].
  cbn [first_cell mbind result_bind]. by rewrite IH.
Qed.

End Preparer.

(** X7.  [get_columns] stops at the first row of a type that is not in
    [ischema_names] whose column name is not ASCII, and raises
    [UnicodeDecodeError] there; it returns when there is no such row.  Its
    trace holds one warning for each row of an unknown type in front of
    that row, in the order of the rows, and nothing else; the warning reads
    [Did not recognize type '<type>' of column '<name>'], with the type
    name of the row and the normalized name of the column. *)
Theorem get_columns_warnings (P : inherited) (rows : list column_row) :
  (exec (get_columns P rows)).1 = before_failure rows ≫= warnings_of P
  ∧ match (exec (get_columns P rows)).2 with
    | Ok cols => before_failure rows = rows
    | Raise e =>
        e = UnicodeDecodeError
        ∧ Exists (λ row, undecodable row = true) rows
    end.
Proof. unfold exec. apply (get_columns_trace P rows []). Qed.

(** At the rows of the examples: one warning, word for word. *)
Example sample_columns_trace :
  (exec (get_columns Examples.P sample_columns)).1
  = [Warn "Did not recognize type 'FROBNICATE' of column 'x'"]
  ∧ exec (get_columns Examples.P accented_columns)
    = ([], Raise UnicodeDecodeError).
Proof. split; vm_compute; reflexivity. Qed.

(** X8.  When every row holds a cell, [get_pk_constraint] returns the
    normalized first cells of the rows in their order and the normalized
    name of the constraint; all of them are normalized names, and without
    a constraint name the name is [None]. *)
Theorem pk_constraint_reflected (P : inherited) (rows : list (list pystr))
    (scalar : pystr) :
  Forall (λ row, row ≠ []) rows →
  ∃ pk,
    get_pk_constraint P rows scalar = Ok pk
    ∧ get_primary_keys P rows = Ok (pk_constrained_columns pk)
    ∧ pk_constrained_columns pk
      = (λ row, normalize_name P (hd None row)) <$> rows
    ∧ pk_name pk = normalize_name P scalar
    ∧ Forall (normalized P) (pk_constrained_columns pk)
    ∧ normalized P (pk_name pk)
    ∧ (scalar = None → pk_name pk = None).
Proof.
  intros Hrows. unfold get_pk_constraint, get_primary_keys.
  rewrite (normalized_first_cells_total P rows Hrows).
  eexists. split; [reflexivity|]. cbn.
  split; [done|]. split; [done|]. split; [done|]. split; [|split].
  - apply Forall_fmap, Forall_forall. intros row _.
    apply normalize_name_fixed.
  - apply normalize_name_fixed.
  - by intros ->.
Qed.

Lemma pk_constraint_reflected_witness :
  ∃ pk,
    get_pk_constraint Examples.P [[Some "ID"]; [Some "Part"]] None = Ok pk
    ∧ pk_constrained_columns pk = [Some "id"; Some "Part"]
    ∧ pk_name pk = None.
Proof.
  destruct (pk_constraint_reflected Examples.P [[Some "ID"]; [Some "Part"]]
              None)
    as (pk & Hpk & _ & Hcols & _ & _ & _ & Hname).
  { repeat constructor; discriminate. }
  exists pk. split; [exact Hpk|]. split; [exact Hcols|]. by apply Hname.
Defined.

End ReflectionFacts.

(** ** Indexes: what a descriptor holds, and their order *)

Module IndexOrderFacts.

Import IdentifierPreparer H2Dialect IndexSpec TextSpec ReflectionSpec
  NameFacts IndexFacts Examples.

Lemma sum_alter_column (f : index_d → index_d) (i : nat)
    (ds : list index_d) (d : index_d) :
  ds !! i = Some d →
  length (idx_column_names (f d)) = S (length (idx_column_names d)) →
  sum_list_with (λ d, length (idx_column_names d)) (alter f i ds)
  = S (sum_list_with (λ d, length (idx_column_names d)) ds).
Proof.
  revert i. induction ds as [|x ds IH]; intros [|i] Hd Hf; try done.
  - injection Hd as ->. change (alter f 0 (d :: ds)) with (f d :: ds).
    simpl. rewrite Hf. lia.
  - change (alter f (S i) (x :: ds)) with (x :: alter f i ds).
    cbn [sum_list_with]. rewrite (IH i Hd Hf). lia.
Qed.

(** Every row adds one column to one descriptor. *)
Lemma grouped_count (rows : list named_row) :
  sum_list_with (λ d, length (idx_column_names d)) (grouped rows)
  = length rows.
Proof.
  induction rows as [|r rows IH] using rev_ind; [reflexivity|].
  unfold grouped in *. rewrite foldl_snoc, length_app.
  set (G := foldl add_row [] rows) in *. unfold add_row.
  destruct (list_find (λ d, idx_name d = Some (nr_name r)) G)
    as [[i d0]|] eqn:Hfind.
  - apply list_find_Some in Hfind as (Hd0 & _ & _).
    rewrite (sum_alter_column _ i G d0 Hd0), IH; [simpl; lia|].
    cbn. rewrite length_app. simpl. lia.
  - rewrite sum_list_with_app, IH. reflexivity.
Qed.

(** The names of the descriptors are the names of the rows in the order of
    their first appearance. *)
Lemma foldl_add_row_names (rows : list named_row) :
  ∀ (ds : list index_d) (seen : list pystr),
    (∀ n, n ∈ seen ↔ Some n ∈ idx_name <$> ds) →
    idx_name <$> foldl add_row ds rows
    = (idx_name <$> ds) ++ (Some <$> distinct seen (nr_name <$> rows)).
Proof.
  induction rows as [|r rows IH]; intros ds seen Hseen.
  - simpl. by rewrite app_nil_r.
  - cbn [foldl fmap list_fmap distinct]. fold (nr_name <$> rows).
    unfold add_row at 2.
    destruct (list_find (λ d, idx_name d = Some (nr_name r)) ds)
      as [[i d0]|] eqn:Hfind.
    + apply list_find_Some in Hfind as (Hd0 & Hname0 & _).
      rewrite decide_True.
      2:{ apply Hseen. rewrite <- Hname0. apply list_elem_of_fmap.
          exists d0. split; [done|]. by eapply list_elem_of_lookup_2. }
      assert (Hnames : idx_name <$> alter
                (λ d, IndexD (Some (nr_name r))
                        (idx_column_names d ++ [nr_column r])
                        (Some (negb (nr_non_unique r)))) i ds
              = idx_name <$> ds).
      { apply names_alter. intros d Hd. cbn. congruence. }
      rewrite (IH _ seen); [by rewrite Hnames|].
      intros n. by rewrite Hnames.
    + apply list_find_None in Hfind. rewrite Forall_forall in Hfind.
      rewrite decide_False.
      2:{ intros Hin. apply Hseen in Hin.
          apply list_elem_of_fmap in Hin as (d & Hn & Hd).
          by apply (Hfind d Hd). }
      rewrite (IH _ (nr_name r :: seen)).
      * rewrite fmap_app. cbn. by rewrite <- app_assoc.
      * intros n. rewrite fmap_app, elem_of_app, elem_of_cons, Hseen.
        cbn. rewrite list_elem_of_singleton. split.
        -- intros [->|Hn]; [by right|by left].
        -- intros [Hn|[= ->]]; [by right|by left].
Qed.

(** X9.  No row is lost and none is counted twice: the descriptors
    [get_indexes] returns hold as many columns in all as there are rows
    that take part. *)
Theorem index_columns_counted (P : inherited) (include_auto_indexes : bool)
    (rows : list index_row) :
  sum_list_with (λ d, length (idx_column_names d))
    (get_indexes P include_auto_indexes rows)
  = length (considered include_auto_indexes rows).
Proof.
  rewrite get_indexes_refines, grouped_count. apply length_fmap.
Qed.

(** X10.  The descriptors come in the order in which the names of their
    indexes first appear among the rows that take part. *)
Theorem index_order (P : inherited) (include_auto_indexes : bool)
    (rows : list index_row) :
  idx_name <$> get_indexes P include_auto_indexes rows
  = Some <$> first_appearances
               ((λ row, normalize_name P (Some (INDEX_NAME row)))
                  <$> considered include_auto_indexes rows).
Proof.
  rewrite get_indexes_refines. unfold grouped, first_appearances.
  rewrite (foldl_add_row_names _ [] []).
  - simpl. by rewrite <- list_fmap_compose.
  - intros n. simpl. by rewrite !elem_of_nil.
Qed.

(** X11.  Every descriptor [get_indexes] returns is complete: it has a name,
    the flag [unique] and at least one column, and its name and columns
    are normalized names. *)
Theorem index_descriptors_complete (P : inherited)
    (include_auto_indexes : bool) (rows : list index_row) (d : index_d) :
  d ∈ get_indexes P include_auto_indexes rows →
  ∃ n u c cs,
    d = IndexD (Some n) (c :: cs) (Some u)
    ∧ normalized P n ∧ Forall (normalized P) (c :: cs).
Proof.
  rewrite get_indexes_refines. intros Hd.
  set (rs := normalize_row P <$> considered include_auto_indexes rows) in *.
  destruct (grouped_spec rs) as (_ & Hdesc & _).
  destruct (Hdesc d Hd) as (n & r & Hn & Hcols & Hlast & Huniq).
  destruct d as [name cols unique]. simpl in *. subst name cols unique.
  assert (Hall : Forall (λ r', normalized P (nr_name r')
                               ∧ normalized P (nr_column r')) rs).
  { apply Forall_fmap, Forall_forall. intros row _. split;
      apply normalize_name_fixed. }
  assert (Hof : Forall (λ r', normalized P (nr_name r')
                              ∧ normalized P (nr_column r')) (rows_of n rs)).
  { rewrite Forall_forall in Hall. apply Forall_forall. intros r' Hr'.
    unfold rows_of in Hr'. apply list_elem_of_filter in Hr' as [_ Hin].
    by apply Hall. }
  assert (Hr : r ∈ rows_of n rs).
  { apply last_Some in Hlast as [l' ->]. apply elem_of_app. right. by left. }
  assert (Hnr : nr_name r = n).
  { unfold rows_of in Hr. by apply list_elem_of_filter in Hr as [? _]. }
  destruct (rows_of n rs) as [|r0 rs0] eqn:Hrs; [by apply elem_of_nil in Hr|].
  exists n, (negb (nr_non_unique r)), (nr_column r0), (nr_column <$> rs0).
  split; [done|]. split.
  - rewrite <- Hnr. rewrite Forall_forall in Hof. by apply (Hof r Hr).
  - change (Forall (normalized P) (nr_column <$> r0 :: rs0)).
    apply Forall_fmap. eapply Forall_impl; [exact Hof|]. by intros r' [_ ?].
Qed.

Lemma index_descriptors_complete_witness :
  ∃ n u c cs,
    IndexD (Some (Some "idx_abc")) [Some "c1"; Some "c2"; Some "c3"]
           (Some false)
    = IndexD (Some n) (c :: cs) (Some u)
    ∧ normalized Examples.P n ∧ Forall (normalized Examples.P) (c :: cs).
Proof.
  apply (index_descriptors_complete Examples.P false sample_indexes).
  vm_compute. apply list_elem_of_here.
Defined.

End IndexOrderFacts.

(** ** Which match the matcher finds *)

Module MatchFacts.

Import ReSpec StringFacts TextSpec ReFacts SplitFacts.

Lemma strip_prefix_app (lit s : string) : strip_prefix lit (lit +:+ s) = Some s.
Proof.
  induction lit as [|c lit IH]; [reflexivity|].
  rewrite app_cons. simpl. by rewrite Ascii.eqb_refl.
Qed.

Lemma run_str (lit s : string) (k : string → option outcome) :
  run (Str lit) (lit +:+ s) k = k s.
Proof. simpl. by rewrite strip_prefix_app. Qed.

Lemma run_cat (r1 r2 : regex) (s : string) (k : string → option outcome) :
  run (r1 ⋅ r2) s k = run r1 s (λ s', run r2 s' k).
Proof. reflexivity. Qed.

Lemma run_opt (r : regex) (s : string) (k : string → option outcome) :
  run (Opt r) s k
  = match run r s k with
    | Some res => Some res
    | None => k s
    end.
Proof. reflexivity. Qed.

Lemma lacks_app (c : ascii) (w1 w2 : string) :
  lacks c w1 → lacks c w2 → lacks c (w1 +:+ w2).
Proof.
  unfold lacks. induction w1 as [|d w1 IH]; [done|].
  rewrite app_cons. simpl. intros [Hd Hw1] Hw2. split; [done|]. by apply IH.
Qed.

Lemma needs_str (c : ascii) (lit : string) (k : string → option outcome) :
  needs c (λ s, run (Str (String c lit)) s k).
Proof.
  intros [|d s] Hs; [reflexivity|]. simpl.
  destruct (Ascii.eqb_spec c d) as [->|]; [|reflexivity].
  by destruct (Hs s).
Qed.

Lemma needs_cat_str (c : ascii) (lit : string) (r : regex)
    (k : string → option outcome) :
  needs c (λ s, run (Str (String c lit) ⋅ r) s k).
Proof. exact (needs_str c lit _). Qed.

Lemma needs_capture (c : ascii) (n : nat) (s0 : string)
    (k : string → option outcome) :
  needs c k → needs c (capture n s0 k).
Proof. intros Hk s Hs. unfold capture. by rewrite (Hk s Hs). Qed.

Section Continuation.

Variable k : string → option outcome.

(** A lazy repetition goes on as long as what follows cannot start. *)
Lemma lazy_star_until (p : ascii → bool) (c : ascii) (w s : string)
    (res : outcome) :
  all_chars p w → lacks c w → needs c k → k s = Some res →
  lazy_star p k (w +:+ s) = Some res.
Proof.
  intros Hp Hc Hk Hs. induction w as [|d w IH].
  - rewrite app_nil_l. destruct s; simpl; by rewrite Hs.
  - destruct Hp as [Hd Hp], Hc as [Hdc Hc]. rewrite app_cons. simpl.
    rewrite Hk, Hd; [by apply IH|].
    intros s' [= -> _]. by rewrite Ascii.eqb_refl in Hdc.
Qed.

(** It fails when what follows can start nowhere. *)
Lemma lazy_star_nowhere (p : ascii → bool) (c : ascii) (s : string) :
  lacks c s → needs c k → lazy_star p k s = None.
Proof.
  intros Hc Hk. induction s as [|d s IH]; simpl.
  - by rewrite Hk.
  - destruct Hc as [Hdc Hc]. rewrite Hk.
    + destruct (p d); [by apply IH|reflexivity].
    + intros s' [= -> _]. by rewrite Ascii.eqb_refl in Hdc.
Qed.

(** A greedy repetition takes all it can when what follows succeeds
    there. *)
Lemma greedy_star_all (p : ascii → bool) (w s : string) (res : outcome) :
  all_chars p w → stops p s → k s = Some res →
  greedy_star p k (w +:+ s) = Some res.
Proof.
  intros Hp Hstop Hs. induction w as [|d w IH].
  - rewrite app_nil_l. destruct s as [|d s]; simpl; [by rewrite Hs|].
    simpl in Hstop. by rewrite Hstop, Hs.
  - destruct Hp as [Hd Hp]. rewrite app_cons. simpl.
    by rewrite Hd, (IH Hp).
Qed.

(** It fails in front of a character it cannot take and what follows cannot
    start with. *)
Lemma greedy_star_nowhere (p : ascii → bool) (c : ascii) (s : string) :
  stops p s → (∀ s', s ≠ String c s') → needs c k →
  greedy_star p k s = None.
Proof.
  intros Hstop Hs Hk. destruct s as [|d s]; simpl.
  - by apply Hk.
  - simpl in Hstop. rewrite Hstop. by apply Hk.
Qed.

End Continuation.

(** A group over a lazy repetition holds the text up to the character the
    rest of the pattern starts with. *)
Lemma run_group_until (n : nat) (p : ascii → bool) (c : ascii) (w s : string)
    (k : string → option outcome) (g : gmap nat string) (rest : string) :
  all_chars p w → lacks c w → needs c k → k s = Some (g, rest) →
  run (Group n (Star false p)) (w +:+ s) k = Some (<[n := w]> g, rest).
Proof.
  intros Hp Hc Hk Hs. simpl.
  apply (lazy_star_until _ p c); [done|done|by apply needs_capture|].
  unfold capture. by rewrite Hs, consumed_app.
Qed.

(** The search passes over a text in which no match starts. *)
Lemma search_from_skip (r : regex) (q : ascii → bool) (w s : string) :
  (∀ d s', q d = true → run r (String d s') final = None) →
  all_chars q w →
  ∀ pos, search_from pos r (w +:+ s)
         = search_from (pos + String.length w) r s.
Proof.
  intros Hr. induction w as [|d w IH]; intros Hq pos.
  - rewrite app_nil_l. simpl. by rewrite Nat.add_0_r.
  - destruct Hq as [Hd Hq]. rewrite app_cons. simpl.
    unfold match_at at 1. fold final. rewrite (Hr d _ Hd).
    rewrite (IH Hq). f_equal. lia.
Qed.

Lemma search_from_nowhere (r : regex) (q : ascii → bool) (w : string) :
  (∀ d s', q d = true → run r (String d s') final = None) →
  run r EmptyString final = None →
  all_chars q w →
  ∀ pos, search_from pos r w = None.
Proof.
  intros Hr Hnil Hq pos.
  rewrite <- (app_nil_r w), (search_from_skip r q w EmptyString Hr Hq).
  simpl. unfold match_at. fold final. by rewrite Hnil.
Qed.

(** Where a match starts, the search finds it. *)
Lemma search_from_here (r : regex) (pos : nat) (s rest : string)
    (g : gmap nat string) :
  run r s final = Some (g, rest) →
  search_from pos r s = Some (MatchObj pos (consumed s rest) g rest).
Proof.
  intros Hrun.
  assert (Hat : match_at pos r s
                = Some (MatchObj pos (consumed s rest) g rest)).
  { unfold match_at. fold final. by rewrite Hrun. }
  destruct s; simpl; by rewrite Hat.
Qed.

End MatchFacts.

(** ** Foreign keys: the definitions that are understood *)

Module ParseFacts.

Import ReSpec StringFacts TextSpec ReFacts SplitFacts MatchFacts
  IdentifierPreparer H2Dialect ForeignKeySpec Examples.

(** The part of the pattern after [REFERENCES ], on a table with its
    columns. *)
Lemma run_referred_table (tbl rcols tail : string) :
  all_chars dot tbl → lacks "(" tbl → all_chars dot rcols → lacks ")" rcols →
  run (Group 3 (Star false dot) ⋅ Str "("
         ⋅ Group 4 (Star false dot) ⋅ Str ")")
      (tbl +:+ "(" +:+ rcols +:+ ")" +:+ tail) final
  = Some (<[3 := tbl]> (<[4 := rcols]> ∅), tail).
Proof.
  intros Ht Htc Hr Hrc. rewrite run_cat.
  apply (run_group_until 3 dot "(" tbl); [done|done|apply needs_cat_str|].
  cbn beta. rewrite run_cat, run_str, run_cat.
  apply (run_group_until 4 dot ")" rcols); [done|done|apply needs_str|].
  cbn beta. by rewrite run_str.
Qed.

Lemma run_referred (sch : option string) (tbl rcols tail : string) :
  all_chars dot tbl → lacks "(" tbl → all_chars dot rcols → lacks ")" rcols →
  match sch with
  | Some s => all_chars dot s ∧ lacks "." s
  | None => lacks "." tbl ∧ lacks "." rcols ∧ lacks "." tail
  end →
  run (Opt (Group 2 (Star false dot) ⋅ Str ".")
         ⋅ Group 3 (Star false dot) ⋅ Str "("
         ⋅ Group 4 (Star false dot) ⋅ Str ")")
      (match sch with
       | Some s => s +:+ "."
       | None => EmptyString
       end +:+ tbl +:+ "(" +:+ rcols +:+ ")" +:+ tail) final
  = Some (match sch with
          | Some s => <[2 := s]> (<[3 := tbl]> (<[4 := rcols]> ∅))
          | None => <[3 := tbl]> (<[4 := rcols]> ∅)
          end, tail).
Proof.
  intros Ht Htc Hr Hrc Hsch.
  pose proof (run_referred_table tbl rcols tail Ht Htc Hr Hrc) as Htable.
  rewrite run_cat, run_opt, run_cat.
  destruct sch as [s|].
  - destruct Hsch as [Hs Hsc]. rewrite app_assoc.
    rewrite (run_group_until 2 dot "." s _ _
               (<[3 := tbl]> (<[4 := rcols]> ∅)) tail Hs Hsc
               (needs_str _ _ _));
      [reflexivity|].
    cbn beta. by rewrite run_str.
  - destruct Hsch as (Htd & Hrd & Htaild). rewrite app_nil_l.
    change (run (Group 2 (Star false dot)) ?t ?k)
      with (lazy_star dot (capture 2 t k) t).
    rewrite (lazy_star_nowhere _ dot "."); [exact Htable| |].
    + repeat apply lacks_app; try done. all: by split.
    + apply needs_capture, needs_str.
Qed.

Lemma run_foreign_key_pattern (cols mid : string) (sch : option string)
    (tbl rcols tail : string) :
  well_formed EmptyString cols mid sch tbl rcols tail →
  run foreign_key_pattern
      (definition_text EmptyString cols mid sch tbl rcols tail) final
  = Some (<[1 := cols]>
            match sch with
            | Some s => <[2 := s]> (<[3 := tbl]> (<[4 := rcols]> ∅))
            | None => <[3 := tbl]> (<[4 := rcols]> ∅)
            end, tail).
Proof.
  intros (_ & [Hc Hcc] & [Hm Hmc] & [Ht Htc] & [Hr Hrc] & Hsch).
  pose proof (run_referred sch tbl rcols tail Ht Htc Hr Hrc Hsch) as Href.
  unfold foreign_key_pattern, definition_text. rewrite app_nil_l.
  rewrite run_cat, run_str, run_cat.
  apply (run_group_until 1 dot ")" cols); [done|done|apply needs_cat_str|].
  cbn beta. rewrite run_cat, run_str, run_cat.
  change (run (Star false dot) ?t ?k) with (lazy_star dot k t).
  apply (lazy_star_until _ dot "R" mid); [done|done|apply needs_cat_str|].
  cbn beta. rewrite run_cat, run_str. exact Href.
Qed.

Lemma search_foreign_key_pattern (before cols mid : string)
    (sch : option string) (tbl rcols tail : string) :
  well_formed before cols mid sch tbl rcols tail →
  ∃ mo,
    search foreign_key_pattern
      (definition_text before cols mid sch tbl rcols tail) = Some mo
    ∧ groups 4 mo = [Some cols; sch; Some tbl; Some rcols].
Proof.
  intros Hwf.
  assert (Hwf0 : well_formed EmptyString cols mid sch tbl rcols tail).
  { destruct Hwf as (_ & Hrest). by split. }
  destruct Hwf as (Hbefore & _).
  apply run_foreign_key_pattern in Hwf0.
  eexists. split.
  - unfold search.
    change (definition_text before cols mid sch tbl rcols tail)
      with (before
            +:+ definition_text EmptyString cols mid sch tbl rcols tail).
    rewrite (search_from_skip _ (λ d, negb (Ascii.eqb d "F")));
      [by apply search_from_here| |exact Hbefore].
    intros d s' Hd.
    apply (needs_cat_str "F" "OREIGN KEY(" _ final (String d s')).
    intros s'' [= -> _]. discriminate.
  - unfold groups. cbn [m_groups fmap list_fmap seq].
    destruct sch as [s|]; reflexivity.
Qed.

Section Preparer.

Variable P : inherited.

(** What [get_foreign_keys] makes of one well-formed definition. *)
Lemma fkey_of_row_parsed (schema default_schema_name conname : pystr)
    (before cols mid : string) (sch : option string)
    (tbl rcols tail : string) :
  well_formed before cols mid sch tbl rcols tail →
  fkey_of_row P schema default_schema_name
    (conname, definition_text before cols mid sch tbl rcols tail)
  = Ok (FKey conname
          (_prepare_name P <$> split constrained_separator cols)
          (let referred_schema :=
             if truthy_str sch
             then _prepare_name P (default EmptyString sch)
             else schema in
           if bool_decide (referred_schema = default_schema_name)
           then None else referred_schema)
          (_prepare_name P tbl)
          (_prepare_name P <$> split referred_separator rcols)).
Proof.
  intros Hwf.
  destruct (search_foreign_key_pattern _ _ _ _ _ _ _ Hwf) as (mo & Hmo & Hg).
  unfold fkey_of_row. by rewrite Hmo, Hg.
Qed.

End Preparer.

(** X12.  A definition of the shape H2 prints is taken apart as written: the
    name is the one of the catalog, the constrained columns, the referred
    table and the referred columns are the prepared parts between the
    parentheses and after [REFERENCES ].  The referred schema is the
    prepared schema written in front of the table, or else the schema
    asked for, or else the default schema, and it is [None] when that is
    the default schema [public]. *)
Theorem foreign_key_definition_parsed (P : inherited)
    (schema conname : pystr) (before cols mid : string)
    (sch : option string) (tbl rcols tail : string) :
  well_formed before cols mid sch tbl rcols tail →
  ∃ fk,
    get_foreign_keys P schema
      [(conname, definition_text before cols mid sch tbl rcols tail)]
    = Ok [fk]
    ∧ fk_name fk = conname
    ∧ fk_constrained_columns fk
      = _prepare_name P <$> split constrained_separator cols
    ∧ fk_referred_table fk = _prepare_name P tbl
    ∧ fk_referred_columns fk
      = _prepare_name P <$> split referred_separator rcols
    ∧ fk_referred_schema fk
      = let referred_schema :=
          match sch, schema with
          | Some (String c s), _ => _prepare_name P (String c s)
          | _, Some _ => schema
          | _, None => Some "public"
          end in
        if bool_decide (referred_schema = Some "public") then None
        else referred_schema.
Proof.
  intros Hwf. unfold get_foreign_keys. cbn [for_each].
  rewrite (fkey_of_row_parsed P _ _ conname _ _ _ _ _ _ _ Hwf).
  eexists. split; [reflexivity|]. cbn.
  repeat split. by destruct sch as [[|c s]|], schema as [x|].
Qed.

Lemma foreign_key_definition_parsed_witness :
  ∃ fk,
    get_foreign_keys Examples.P None
      [(Some "FK_1",
        definition_text "ALTER TABLE CHILD ADD CONSTRAINT C1 " "a, b" " "
          (Some "OTHER_SCHEMA") "parent" "x, y" " NOCHECK")]
    = Ok [fk]
    ∧ fk_name fk = Some "FK_1"
    ∧ fk_constrained_columns fk
      = _prepare_name Examples.P <$> split constrained_separator "a, b"
    ∧ fk_referred_table fk = _prepare_name Examples.P "parent"
    ∧ fk_referred_columns fk
      = _prepare_name Examples.P <$> split referred_separator "x, y"
    ∧ fk_referred_schema fk
      = if bool_decide (_prepare_name Examples.P "OTHER_SCHEMA"
                        = Some "public")
        then None else _prepare_name Examples.P "OTHER_SCHEMA".
Proof.
  apply (foreign_key_definition_parsed Examples.P None (Some "FK_1")
           "ALTER TABLE CHILD ADD CONSTRAINT C1 " "a, b" " "
           (Some "OTHER_SCHEMA") "parent" "x, y" " NOCHECK").
  unfold well_formed, lacks. simpl. tauto.
Defined.

End ParseFacts.

(** ** Lists of columns *)

Module ColumnListFacts.

Import ReSpec StringFacts TextSpec ReFacts SplitFacts MatchFacts H2Dialect.

Lemma concat_cons2 (sep w w' : string) (names : list string) :
  String.concat sep (w :: w' :: names)
  = w +:+ sep +:+ String.concat sep (w' :: names).
Proof. reflexivity. Qed.

Lemma concat_starts (sep w : string) (names : list string) :
  column_name w →
  ∃ d s', String.concat sep (w :: names) = String d s' ∧ name_char d = true.
Proof.
  intros [Hne Hw]. destruct w as [|d w]; [done|]. destruct Hw as [Hd _].
  destruct names as [|w' names].
  - by exists d, w.
  - rewrite concat_cons2, app_cons. by eexists _, _.
Qed.

(** A text made of names and of a separator the pattern takes as a whole is
    split into the names. *)
Lemma split_loop_joined (r : regex) (sep : string) :
  sep ≠ EmptyString →
  (∀ d s', name_char d = true → run r (String d s') final = None) →
  run r EmptyString final = None →
  (∀ d s', name_char d = true →
     run r (sep +:+ String d s') final = Some (∅, String d s')) →
  ∀ names w fuel,
    Forall column_name (w :: names) →
    String.length (String.concat sep (w :: names)) < fuel →
    split_loop fuel r EmptyString (String.concat sep (w :: names))
    = w :: names.
Proof.
  intros Hsep Hword Hnil Htake.
  induction names as [|w' names IH]; intros w fuel Hnames Hfuel.
  - apply Forall_cons in Hnames as [[_ Hw] _].
    destruct fuel as [|fuel]; [by apply Nat.nlt_0_r in Hfuel|].
    cbn [String.concat split_loop]. unfold search.
    by rewrite (search_from_nowhere r name_char w Hword Hnil Hw).
  - apply Forall_cons in Hnames as [[_ Hw] Hnames].
    pose proof Hnames as Hnames'.
    apply Forall_cons in Hnames' as [Hw' _].
    destruct (concat_starts sep w' names Hw') as (d & s' & Hrest & Hd).
    rewrite concat_cons2 in *. rewrite Hrest in Hfuel.
    destruct fuel as [|fuel]; [by apply Nat.nlt_0_r in Hfuel|].
    cbn [split_loop]. unfold search.
    rewrite (search_from_skip r name_char w _ Hword Hw). rewrite Hrest.
    rewrite (search_from_here r _ _ _ _ (Htake d s' Hd)).
    cbn [m_text m_start m_rest]. rewrite consumed_app.
    destruct sep as [|c sep]; [done|].
    rewrite app_nil_l, Nat.add_0_l, take_app. f_equal.
    rewrite <- Hrest. apply IH; [done|].
    rewrite Hrest. rewrite !length_app in Hfuel. simpl in *. lia.
Qed.

Lemma split_joined (r : regex) (sep : string) (names : list string) :
  sep ≠ EmptyString →
  (∀ d s', name_char d = true → run r (String d s') final = None) →
  run r EmptyString final = None →
  (∀ d s', name_char d = true →
     run r (sep +:+ String d s') final = Some (∅, String d s')) →
  names ≠ [] → Forall column_name names →
  split r (String.concat sep names) = names.
Proof.
  intros Hsep Hword Hnil Htake Hne Hnames.
  destruct names as [|w names]; [done|].
  apply split_loop_joined; try done. lia.
Qed.

Lemma name_char_not_space (d : ascii) : name_char d = true → space d = false.
Proof.
  unfold name_char. intros [_ Hd]%andb_prop. by apply negb_true_iff in Hd.
Qed.

Lemma name_char_not_comma (d : ascii) (s s' : string) :
  name_char d = true → String d s ≠ String "," s'.
Proof.
  unfold name_char. intros [Hd _]%andb_prop [= -> _]. discriminate.
Qed.

(** Both separators fail where a name starts and at the end of the
    text. *)
Lemma separator_not_at_name (r : regex) (d : ascii) (s' : string) :
  name_char d = true →
  run (Star true space ⋅ Str "," ⋅ r) (String d s') final = None.
Proof.
  intros Hd. rewrite run_cat.
  apply (greedy_star_nowhere _ space ",").
  - by apply name_char_not_space.
  - intros s''. by apply name_char_not_comma.
  - apply needs_cat_str.
Qed.

Lemma separator_not_at_end (r : regex) :
  run (Star true space ⋅ Str "," ⋅ r) EmptyString final = None.
Proof. reflexivity. Qed.

Lemma constrained_separator_takes (ws1 ws2 : string) (d : ascii)
    (s' : string) :
  all_chars space ws1 → all_chars space ws2 → name_char d = true →
  run constrained_separator ((ws1 +:+ "," +:+ ws2) +:+ String d s') final
  = Some (∅, String d s').
Proof.
  intros H1 H2 Hd. unfold constrained_separator.
  rewrite !app_assoc, run_cat.
  apply (greedy_star_all _ space ws1); [done|reflexivity|].
  rewrite run_cat, run_str.
  apply (greedy_star_all _ space ws2); [done| |reflexivity].
  by apply name_char_not_space.
Qed.

Lemma referred_separator_takes (ws1 : string) (d : ascii) (s' : string) :
  all_chars space ws1 → name_char d = true →
  run referred_separator ((ws1 +:+ ", ") +:+ String d s') final
  = Some (∅, String d s').
Proof.
  intros H1 Hd. unfold referred_separator.
  rewrite !app_assoc, run_cat.
  apply (greedy_star_all _ space ws1); [done|reflexivity|].
  change ", " with ("," +:+ " "). rewrite app_assoc.
  by rewrite run_cat, run_str.
Qed.

Lemma separator_text_nonempty (ws1 rest : string) :
  ws1 +:+ String "," rest ≠ EmptyString.
Proof. by destruct ws1. Qed.

(** X13.  A list of column names written with a comma between them, with
    white space about the comma or without, is split into the names by the
    separator of the constrained columns; the separator of the referred
    columns does the same when one space follows each comma. *)
Theorem split_joined_names (ws1 ws2 : string) (names : list string) :
  all_chars space ws1 → all_chars space ws2 →
  names ≠ [] → Forall column_name names →
  split constrained_separator (String.concat (ws1 +:+ "," +:+ ws2) names)
  = names
  ∧ split referred_separator (String.concat (ws1 +:+ ", ") names) = names.
Proof.
  intros H1 H2 Hne Hnames. split.
  - apply split_joined; try done.
    + apply separator_text_nonempty.
    + intros d s' Hd. by apply separator_not_at_name.
    + intros d s' Hd. by apply constrained_separator_takes.
  - apply split_joined; try done.
    + apply separator_text_nonempty.
    + intros d s' Hd. by apply separator_not_at_name.
    + intros d s' Hd. by apply referred_separator_takes.
Qed.

Lemma split_joined_names_witness :
  split constrained_separator
    (String.concat (EmptyString +:+ "," +:+ " ") ["id"; "parent_id"; "name"])
  = ["id"; "parent_id"; "name"]
  ∧ split referred_separator
      (String.concat (EmptyString +:+ ", ") ["id"; "parent_id"; "name"])
    = ["id"; "parent_id"; "name"].
Proof.
  apply (split_joined_names EmptyString " " ["id"; "parent_id"; "name"]);
    [exact I|by split|discriminate|].
  repeat constructor; try discriminate; vm_compute; tauto.
Defined.

(** Without white space after the commas the separator of the referred
    columns is found nowhere. *)
Lemma search_referred_unspaced (names : list string) :
  ∀ w pos,
    Forall column_name (w :: names) →
    search_from pos referred_separator (String.concat "," (w :: names))
    = None.
Proof.
  induction names as [|w' names IH]; intros w pos Hnames.
  - apply Forall_cons in Hnames as [[_ Hw] _]. cbn [String.concat].
    apply (search_from_nowhere _ name_char); [|reflexivity|done].
    intros d s' Hd. by apply separator_not_at_name.
  - apply Forall_cons in Hnames as [[_ Hw] Hnames].
    pose proof Hnames as Hnames'.
    apply Forall_cons in Hnames' as [Hw' _].
    destruct (concat_starts "," w' names Hw') as (d & s' & Hrest & Hd).
    rewrite concat_cons2.
    rewrite (search_from_skip _ name_char w);
      [| intros d0 s0 Hd0; by apply separator_not_at_name | done].
    rewrite app_cons, app_nil_l. cbn [search_from].
    assert (Hcomma : match_at (pos + String.length w) referred_separator
                       (String "," (String.concat "," (w' :: names)))
                     = None).
    { rewrite Hrest. unfold match_at, referred_separator. cbn.
      by rewrite (name_char_not_space d Hd). }
    rewrite Hcomma. by apply IH.
Qed.

(** X14.  A list of column names written with commas and no white space is
    not split by the separator of the referred columns: it comes back as
    one text. *)
Theorem unspaced_names_not_split (names : list string) :
  names ≠ [] → Forall column_name names →
  split referred_separator (String.concat "," names)
  = [String.concat "," names].
Proof.
  intros Hne Hnames. destruct names as [|w names]; [done|].
  unfold split. cbn [split_loop]. unfold search.
  by rewrite search_referred_unspaced.
Qed.

Lemma unspaced_names_not_split_witness :
  split referred_separator (String.concat "," ["id"; "parent_id"; "name"])
  = [String.concat "," ["id"; "parent_id"; "name"]].
Proof.
  apply (unspaced_names_not_split ["id"; "parent_id"; "name"]);
    [discriminate|].
  repeat constructor; try discriminate; vm_compute; tauto.
Defined.

End ColumnListFacts.

(** ** Foreign keys: what is raised and what is handed out *)

Module ForeignKeyShapeFacts.

Import ReSpec StringFacts TextSpec ReFacts SplitFacts GroupFacts
  IdentifierPreparer H2Dialect ForeignKeySpec ForeignKeyFacts NameFacts
  Examples.

(** The pattern of line 484 is found exactly in the texts of the shape. *)
Lemma search_foreign_key_shaped (condef : string) :
  is_Some (search foreign_key_pattern condef) ↔ shaped condef.
Proof.
  unfold search. rewrite search_from_is_Some.
  unfold shaped, definition_text, foreign_key_pattern. simpl. split.
  - intros (before & w & rest & -> & w1 & w2 & -> & -> & w3 & w4 & -> & Hcols
            & w5 & w6 & -> & -> & w7 & w8 & -> & Hmid & w9 & w10 & -> & ->
            & w11 & w12 & -> & Hopt & w13 & w14 & -> & Htbl
            & w15 & w16 & -> & -> & w17 & w18 & -> & Hr & ->).
    destruct Hopt as [->|(wa & wb & -> & Hsch & ->)].
    + exists before, w3, w7, None, w13, w17, rest.
      split; [by rewrite !app_assoc|done].
    + exists before, w3, w7, (Some wa), w13, w17, rest.
      split; [by rewrite !app_assoc|done].
  - intros (before & cols & mid & sch & tbl & rcols & tail & -> & Hcols & Hmid
            & Hsch & Htbl & Hr).
    exists before,
      ("FOREIGN KEY(" +:+ cols +:+ ")" +:+ mid +:+ "REFERENCES "
         +:+ match sch with
             | Some s => s +:+ "."
             | None => EmptyString
             end +:+ tbl +:+ "(" +:+ rcols +:+ ")"), tail.
    split; [by rewrite !app_assoc|].
    eexists _, _. split; [done|]. split; [done|].
    eexists _, _. split; [done|]. split; [done|].
    eexists _, _. split; [done|]. split; [done|].
    eexists _, _. split; [done|]. split; [done|].
    eexists _, _. split; [done|]. split; [done|].
    eexists _, _. split; [done|]. split.
    { destruct sch as [s|]; [right|by left]. by exists s, ".". }
    eexists _, _. split; [done|]. split; [done|].
    eexists _, _. split; [done|]. split; [done|].
    by exists rcols, ")".
Qed.

Section Preparer.

Variable P : inherited.

Lemma fkey_of_row_found (schema default_schema_name : pystr)
    (row : pystr * string) (fk : fkey_d) :
  fkey_of_row P schema default_schema_name row = Ok fk →
  is_Some (search foreign_key_pattern row.2).
Proof.
  destruct row as [conname condef]. unfold fkey_of_row. simpl.
  destruct (search foreign_key_pattern condef) as [mo|]; [by eauto|done].
Qed.

Lemma for_each_shaped (schema default_schema_name : pystr)
    (rows : list (pystr * string)) :
  match for_each (fkey_of_row P schema default_schema_name) rows with
  | Ok fks => length fks = length rows ∧ Forall (λ row, shaped row.2) rows
  | Raise e => e = AttributeError ∧ Exists (λ row, ¬ shaped row.2) rows
  end.
Proof.
  induction rows as [|row rows IH]; [by split|].
  cbn [for_each].
  destruct (fkey_of_row P schema default_schema_name row) as [fk|e] eqn:Hrow;
    cbn [mbind result_bind].
  - apply fkey_of_row_found, search_foreign_key_shaped in Hrow.
    destruct (for_each _ rows) as [fks|e]; cbn [mbind result_bind].
    + destruct IH as [Hlen Hall]. split; [simpl; by rewrite Hlen|].
      by constructor.
    + destruct IH as [He Hex]. split; [done|]. by apply Exists_cons_tl.
  - apply fkey_of_row_raises in Hrow as [Hnone ->]. split; [done|].
    apply Exists_cons_hd. rewrite <- search_foreign_key_shaped, Hnone.
    by intros [? ?].
Qed.

(** What one row gives is prepared. *)
Lemma fkey_of_row_prepared (schema default_schema_name : pystr)
    (row : pystr * string) (fk : fkey_d) :
  default_schema_name ≠ None →
  fkey_of_row P schema default_schema_name row = Ok fk →
  fk_referred_schema fk ≠ default_schema_name
  ∧ normalized P (fk_referred_table fk)
  ∧ Forall (normalized P) (fk_constrained_columns fk)
  ∧ Forall (normalized P) (fk_referred_columns fk).
Proof.
  intros Hdefault.
  destruct row as [conname condef]. unfold fkey_of_row.
  destruct (search foreign_key_pattern condef) as [mo|]; [|done].
  cbn [mbind result_bind].
  destruct (groups 4 mo) as [|[c|] [|s [|[t|] [|[r|] [|]]]]]; try done.
  intros [= <-]. cbn.
  assert (Hprep : ∀ raw, normalized P (_prepare_name P raw)).
  { intros raw. apply normalize_name_fixed. }
  split; [|split; [apply Hprep|split]].
  - case_bool_decide; [congruence|done].
  - apply Forall_fmap, Forall_forall. intros x _. apply Hprep.
  - apply Forall_fmap, Forall_forall. intros x _. apply Hprep.
Qed.

End Preparer.

(** X15.  [get_foreign_keys] raises exactly when the definition of some row
    has no part of the shape [FOREIGN KEY(...) ... REFERENCES ...(...)],
    each part on one line; the exception is the [AttributeError] of the
    failed search and no foreign key is returned.  Otherwise it returns one
    foreign key for each row. *)
Theorem get_foreign_keys_raises (P : inherited) (schema : pystr)
    (rows : list (pystr * string)) :
  match get_foreign_keys P schema rows with
  | Ok fks => length fks = length rows ∧ Forall (λ row, shaped row.2) rows
  | Raise e => e = AttributeError ∧ Exists (λ row, ¬ shaped row.2) rows
  end.
Proof. apply for_each_shaped. Qed.

(** X16.  In a foreign key that is returned the referred table and all
    columns are normalized names, and the referred schema is never the
    default schema [public]: that one is left out. *)
Theorem foreign_keys_prepared (P : inherited) (schema : pystr)
    (rows : list (pystr * string)) (fks : list fkey_d) :
  get_foreign_keys P schema rows = Ok fks →
  Forall (λ fk, fk_referred_schema fk ≠ Some "public"
                ∧ normalized P (fk_referred_table fk)
                ∧ Forall (normalized P) (fk_constrained_columns fk)
                ∧ Forall (normalized P) (fk_referred_columns fk)) fks.
Proof.
  unfold get_foreign_keys. intros Hfks. apply for_each_inv in Hfks.
  induction Hfks as [|row fk rows fks Hrow _ IH]; constructor; [|exact IH].
  by apply fkey_of_row_prepared in Hrow.
Qed.

Lemma foreign_keys_prepared_witness :
  Forall (λ fk, fk_referred_schema fk ≠ Some "public"
                ∧ normalized Examples.P (fk_referred_table fk)
                ∧ Forall (normalized Examples.P) (fk_constrained_columns fk)
                ∧ Forall (normalized Examples.P) (fk_referred_columns fk))
    [FKey (Some "FK_CHILD_PARENT") [Some "a"; Some "b"]
          None (Some "parent") [Some "x"; Some "y"]].
Proof.
  apply (foreign_keys_prepared Examples.P None [default_schema_foreign_key]).
  vm_compute. reflexivity.
Defined.

End ForeignKeyShapeFacts.

(** ** Two-phase transactions: rollback, and prepare followed by commit *)

Module TwoPhaseFacts.

Import H2Dialect Examples.

(** X17.  With [is_prepared], [do_rollback_twophase] hands [ROLLBACK
    TRANSACTION <xid>] to the executor; when the executor returns, a local
    rollback follows and its outcome is the outcome of the method; when the
    executor raises, the exception is the outcome and no local rollback is
    issued.  Without [is_prepared] a local rollback is all that happens.
    Nothing is committed either way. *)
Theorem rollback_twophase_trace (conn : connection) (xid : string)
    (recover : bool) :
  exec (do_rollback_twophase conn xid true recover)
  = match cursor_execute conn ("ROLLBACK TRANSACTION " +:+ xid) with
    | Ok _ =>
        ([Execute ("ROLLBACK TRANSACTION " +:+ xid); DoRollback],
         dbapi_rollback conn)
    | Raise e => ([Execute ("ROLLBACK TRANSACTION " +:+ xid)], Raise e)
    end
  ∧ exec (do_rollback_twophase conn xid false recover)
    = ([DoRollback], dbapi_rollback conn)
  ∧ ∀ is_prepared,
      DoCommit ∉ (exec (do_rollback_twophase conn xid is_prepared recover)).1.
Proof.
  unfold exec, do_rollback_twophase, do_rollback, execute, emit, lift,
    mbind, M_bind.
  split; [|split].
  - simpl. destruct (cursor_execute conn _); [|done].
    by destruct (dbapi_rollback conn).
  - simpl. by destruct (dbapi_rollback conn).
  - intros [|]; simpl.
    + destruct (cursor_execute conn _); [destruct (dbapi_rollback conn)|];
        simpl; intros Hin; apply list_elem_of_In in Hin; simpl in Hin;
        intuition discriminate.
    + destruct (dbapi_rollback conn); simpl; intros Hin;
        apply list_elem_of_In in Hin; simpl in Hin; intuition discriminate.
Qed.

(** X18.  Prepare followed by commit: when the executor accepts both
    commands the trace is [PREPARE COMMIT <xid>], [COMMIT TRANSACTION
    <xid>] and a local rollback, whose outcome is the outcome; when it
    rejects the first, nothing else is issued. *)
Theorem prepare_then_commit (conn : connection) (xid : string)
    (recover : bool) :
  (∀ rows rows',
      cursor_execute conn ("PREPARE COMMIT " +:+ xid) = Ok rows →
      cursor_execute conn ("COMMIT TRANSACTION " +:+ xid) = Ok rows' →
      exec (_ ← do_prepare_twophase conn xid;
            do_commit_twophase conn xid true recover)
      = ([Execute ("PREPARE COMMIT " +:+ xid);
          Execute ("COMMIT TRANSACTION " +:+ xid); DoRollback],
         dbapi_rollback conn))
  ∧ (∀ e,
      cursor_execute conn ("PREPARE COMMIT " +:+ xid) = Raise e →
      exec (_ ← do_prepare_twophase conn xid;
            do_commit_twophase conn xid true recover)
      = ([Execute ("PREPARE COMMIT " +:+ xid)], Raise e)).
Proof.
  unfold exec, do_prepare_twophase, do_commit_twophase, do_rollback,
    execute, emit, lift, mbind, M_bind, mret, M_ret.
  split.
  - intros rows rows' Hprepare Hcommit. simpl.
    rewrite Hprepare, Hcommit. by destruct (dbapi_rollback conn).
  - intros e Hprepare. simpl. by rewrite Hprepare.
Qed.

Lemma prepare_then_commit_witness :
  exec (_ ← do_prepare_twophase working_connection "x1";
        do_commit_twophase working_connection "x1" true false)
  = ([Execute "PREPARE COMMIT x1"; Execute "COMMIT TRANSACTION x1";
      DoRollback], Ok tt)
  ∧ exec (_ ← do_prepare_twophase failing_connection "x1";
          do_commit_twophase failing_connection "x1" true false)
    = ([Execute "PREPARE COMMIT x1"], Raise (DBAPIError "rejected")).
Proof.
  split.
  - apply (proj1 (prepare_then_commit working_connection "x1" false)
             [[Some "V1"]; [Some "MixedCase"]]
             [[Some "V1"]; [Some "MixedCase"]]); reflexivity.
  - apply (proj2 (prepare_then_commit failing_connection "x1" false)
             (DBAPIError "rejected")). reflexivity.
Defined.

End TwoPhaseFacts.

(** ** Lookups by name *)

Module LookupFacts.

Import IdentifierPreparer H2Dialect H2Lookup LookupExamples StringFacts
  NameFacts Examples.

Lemma bindparams_upper (P : inherited) (key : string) (x : string)
    (kwargs : gmap string pystr) :
  lower x = x → _requires_quotes P x = false →
  _get_bindparams P (<[key := Some (upper x)]> kwargs)
  = _get_bindparams P (<[key := Some x]> kwargs).
Proof.
  intros Hlow Hq. unfold _get_bindparams.
  by rewrite !fmap_insert, (denormalize_name_upper P x Hlow Hq).
Qed.

(** X19.  The lookups do not tell a lower-case name that requires no quotes
    from its upper-case form: [has_table] and [has_sequence] bind the same
    name for both, in the schema asked for, and [table_names] lists the
    same schema for both.  Asking without a schema is asking for the
    schema [public]. *)
Theorem lookups_ignore_case (P : inherited) (connection : executor)
    (x : string) (schema : pystr) :
  lower x = x → _requires_quotes P x = false →
  has_table P connection (upper x) schema = has_table P connection x schema
  ∧ has_sequence P connection (upper x) schema
    = has_sequence P connection x schema
  ∧ table_names P connection (Some (upper x))
    = table_names P connection (Some x)
  ∧ has_table P connection x None = has_table P connection x (Some "public")
  ∧ table_names P connection None = table_names P connection (Some "public").
Proof.
  intros Hlow Hq. unfold has_table, has_sequence, table_names.
  split; [|split; [|split; [|split; reflexivity]]].
  - by rewrite (bindparams_upper P "table" x _ Hlow Hq).
  - by rewrite (bindparams_upper P "sequence" x _ Hlow Hq).
  - by rewrite (bindparams_upper P "schema" x _ Hlow Hq).
Qed.

Lemma lookups_ignore_case_witness :
  has_table Examples.P sample_catalog "USERS" None = Ok true
  ∧ has_table Examples.P sample_catalog "users" None = Ok true.
Proof.
  destruct (lookups_ignore_case Examples.P sample_catalog "users" None)
    as (Htable & _); [reflexivity|reflexivity|].
  split; [vm_compute; reflexivity|].
  rewrite <- Htable. vm_compute. reflexivity.
Defined.

End LookupFacts.

(** ** The error code of a driver exception *)

Module SqlCodeFacts.

Import ReSpec StringFacts TextSpec ReFacts SplitFacts MatchFacts H2_zxjdbc
  SqlCodeSpec.

Lemma run_sqlcode_here (digits after : string) :
  digits ≠ EmptyString → all_chars is_digit digits →
  run sqlcode_pattern ("[SQLCode: " +:+ digits +:+ "]" +:+ after) final
  = Some (<[1 := digits]> ∅, after).
Proof.
  intros Hne Hdigits. destruct digits as [|d ds]; [done|].
  destruct Hdigits as [Hd Hds].
  unfold sqlcode_pattern. rewrite run_cat, run_str, run_cat.
  cbn [run plus]. rewrite app_cons, Hd.
  apply (greedy_star_all _ is_digit ds); [done|reflexivity|].
  unfold capture. rewrite strip_prefix_app. unfold final.
  by rewrite <- app_cons, consumed_app.
Qed.

(** The group of a match holds at least one character. *)
Lemma run_sqlcode_group (s : string) (g : gmap nat string) (rest : string) :
  run sqlcode_pattern s final = Some (g, rest) →
  ∃ d ds, g !! 1 = Some (String d ds).
Proof.
  unfold sqlcode_pattern. rewrite run_cat. cbn [run plus].
  destruct (strip_prefix "[SQLCode: " s) as [s1|]; [|done].
  destruct s1 as [|d s2]; [done|]. destruct (is_digit d); [|done].
  intros Hrun. apply greedy_star_sound in Hrun as (w & s' & -> & _ & Hcap).
  unfold capture in Hcap.
  destruct (strip_prefix "]" s') as [s3|]; [|done].
  injection Hcap as <- <-. exists d, w.
  by rewrite lookup_insert_eq, <- app_cons, consumed_app.
Qed.

Lemma search_sqlcode_group (s : string) :
  ∀ pos m,
    search_from pos sqlcode_pattern s = Some m →
    ∃ d ds, m_groups m !! 1 = Some (String d ds).
Proof.
  assert (Hat : ∀ pos s m,
             match_at pos sqlcode_pattern s = Some m →
             ∃ d ds, m_groups m !! 1 = Some (String d ds)).
  { intros pos s0 m. unfold match_at. fold final.
    destruct (run sqlcode_pattern s0 final) as [[g rest]|] eqn:Hrun; [|done].
    intros [= <-]. by apply run_sqlcode_group in Hrun. }
  induction s as [|c s IH]; intros pos m; cbn [search_from].
  - destruct (match_at pos sqlcode_pattern EmptyString) eqn:Hm; [|done].
    intros [= <-]. by eapply Hat.
  - destruct (match_at pos sqlcode_pattern (String c s)) eqn:Hm.
    + intros [= <-]. by eapply Hat.
    + apply IH.
Qed.

Lemma search_sqlcode (args : string) :
  is_Some (search sqlcode_pattern args) ↔ has_sqlcode args.
Proof.
  unfold search. rewrite search_from_is_Some.
  unfold has_sqlcode, sqlcode_pattern. simpl. split.
  - intros (before & w & rest & -> & w1 & w2 & -> & -> & w3 & w4 & ->
            & (w5 & w6 & -> & (d & -> & Hd) & Hds) & ->).
    exists before, (String d w6), rest.
    split; [by rewrite !app_assoc|]. by split.
  - intros (before & digits & after & -> & Hne & Hdigits).
    destruct digits as [|d ds]; [done|]. destruct Hdigits as [Hd Hds].
    exists before, ("[SQLCode: " +:+ String d ds +:+ "]"), after.
    split; [by rewrite !app_assoc|].
    eexists _, _. split; [done|]. split; [done|].
    eexists _, _. split; [done|]. split; [|done].
    exists (String d EmptyString), ds. split; [done|]. split; [|done].
    by exists d.
Qed.

(** X20.  When the first bracket of the text opens [[SQLCode: <digits>]], the
    error code is the number the digits write. *)
Theorem extract_error_code_found (before digits after : string) :
  lacks "[" before → digits ≠ EmptyString → all_chars is_digit digits →
  _extract_error_code (before +:+ "[SQLCode: " +:+ digits +:+ "]" +:+ after)
  = Ok (Some (int digits)).
Proof.
  intros Hbefore Hne Hdigits. unfold _extract_error_code, search.
  rewrite (search_from_skip _ (λ d, negb (Ascii.eqb d "["))).
  - rewrite (search_from_here _ _ _ _ _ (run_sqlcode_here _ after Hne Hdigits)).
    cbn [m_groups]. rewrite lookup_insert_eq.
    by destruct digits.
  - intros d s' Hd.
    apply (needs_cat_str "[" "SQLCode: " _ final (String d s')).
    intros s'' [= -> _]. discriminate.
  - exact Hbefore.
Qed.

Lemma extract_error_code_found_witness :
  _extract_error_code
    ("(Error) Table not found " +:+ "[SQLCode: " +:+ "1146" +:+ "]"
       +:+ ", [SQLState: 42S02]")
  = Ok (Some 1146%Z).
Proof.
  apply (extract_error_code_found "(Error) Table not found " "1146"
           ", [SQLState: 42S02]").
  - unfold lacks. simpl. tauto.
  - discriminate.
  - simpl. tauto.
Defined.

(** X21.  [_extract_error_code] returns a number when the text holds
    [[SQLCode: <digits>]] and raises [AttributeError] when it does not; it
    never returns [None]. *)
Theorem extract_error_code_cases (args : string) :
  (has_sqlcode args ∧ ∃ n, _extract_error_code args = Ok (Some n))
  ∨ (¬ has_sqlcode args ∧ _extract_error_code args = Raise AttributeError).
Proof.
  pose proof (search_sqlcode args) as Hsearch.
  unfold _extract_error_code.
  destruct (search sqlcode_pattern args) as [m|] eqn:Hm.
  - left. split; [apply Hsearch; by eauto|].
    apply search_sqlcode_group in Hm as (d & ds & ->). by eexists.
  - right. split; [|done]. intros Hcode. apply Hsearch in Hcode.
    by destruct Hcode.
Qed.

End SqlCodeFacts.
